(** * IPEDS data cleaning: a shallow embedding of [scripts/ipeds_data_cleaning.py]

    The script merges the two CSV members of an IPEDS "Compare Institutions"
    archive: value codes of the data table are replaced by their labels and
    the column headers are rewritten by [clean_column].

    Modelling choices.
    - A Python [str] is modelled twice.  Member names, column labels and the
      headers of the data file are ASCII strings, Rocq [string]s, on which
      [str.lower] is the map 'A'..'Z' to 'a'..'z' ([Str], [clean_column]).
      [Unicode.clean_column] is the same function on any sequence of code
      points, with the lower-case mapping beyond ASCII taken from the Unicode
      tables; on ASCII headers the two agree ([Bridge.clean_column_ascii]).
    - A cell read by [pd.read_csv] is a number, a text or missing (NaN);
      numeric codes are integers.
    - A Python [dict] keeps insertion order; it is an association list whose
      [Dict.set] overwrites in place or appends.
    - A [DataFrame] is the ordered list of its columns; its column labels are
      unique, as [pd.read_csv] delivers them.
    - Unhandled exceptions are values of [fault] in an error monad.  The
      steps modelled with their faults are the two member selections, the
      two reads, the column filter and the substitution loop; the write is
      taken to succeed. *)

From Stdlib Require Import Bool Arith Lia List ZArith Ascii String.
Import ListNotations.

Local Open Scope string_scope.
Local Open Scope list_scope.

(** ** Python strings *)

Module Str.

(** [needle in hay] *)
Fixpoint contains (needle hay : string) : bool :=
  String.prefix needle hay
  || match hay with
     | EmptyString => false
     | String _ hay' => contains needle hay'
     end.

(** [s.replace("", new)]: [new] goes before every character and at the end. *)
Fixpoint replace_empty (new s : string) : string :=
  match s with
  | EmptyString => new
  | String c s' => new ++ String c (replace_empty new s')
  end.

(** Left-to-right scan for a non-empty [old]; [skip] counts the characters of
    the occurrence just replaced that are still to be dropped, so occurrences
    never overlap. *)
Fixpoint replace_from (old new : string) (skip : nat) (s : string) : string :=
  match s with
  | EmptyString => EmptyString
  | String c s' =>
      match skip with
      | S k => replace_from old new k s'
      | O =>
          if String.prefix old s
          then new ++ replace_from old new (String.length old - 1) s'
          else String c (replace_from old new 0 s')
      end
  end.

(** [s.replace(old, new)] *)
Definition replace (old new s : string) : string :=
  match old with
  | EmptyString => replace_empty new s
  | String _ _ => replace_from old new 0 s
  end.

Definition is_upper (c : ascii) : bool :=
  Nat.leb 65 (nat_of_ascii c) && Nat.leb (nat_of_ascii c) 90.

Definition not_upper (c : ascii) : bool := negb (is_upper c).

Definition lower_char (c : ascii) : ascii :=
  if is_upper c then ascii_of_nat (nat_of_ascii c + 32) else c.

(** [s.lower()] *)
Fixpoint lower (s : string) : string :=
  match s with
  | EmptyString => EmptyString
  | String c s' => String (lower_char c) (lower s')
  end.

(** Every character of [s] satisfies [p]. *)
Fixpoint all (p : ascii -> bool) (s : string) : bool :=
  match s with
  | EmptyString => true
  | String c s' => p c && all p s'
  end.

End Str.

(** ** The fragment of [re] used by the script *)

Module Re.

(** One item of a pattern: an escaped or ordinary character, or a greedy
    starred negated class [[^...]*]. *)
Inductive atom : Type :=
  | Lit (c : ascii)
  | StarNoneOf (excluded : list ascii).

Definition regex : Type := list atom.

Definition in_class (c : ascii) (cs : list ascii) : bool :=
  existsb (Ascii.eqb c) cs.

(** Backtracking match anchored at the start of [s]; the result is the number
    of characters matched.  The star takes as many characters as it can and
    gives them back one at a time when the rest of the pattern fails. *)
Fixpoint match_here (re : regex) (s : string) : option nat :=
  match re with
  | [] => Some 0
  | Lit c :: re' =>
      match s with
      | EmptyString => None
      | String d s' =>
          if Ascii.eqb c d then option_map S (match_here re' s') else None
      end
  | StarNoneOf cs :: re' =>
      (fix star (t : string) : option nat :=
         match t with
         | EmptyString => match_here re' EmptyString
         | String d t' =>
             if in_class d cs then match_here re' t
             else match star t' with
                  | Some n => Some (S n)
                  | None => match_here re' t
                  end
         end) s
  end.

(** Scan of [re.sub]: at each position not inside the previous match the
    pattern is tried; a match is replaced by [repl] and its characters are
    skipped, otherwise the character is copied.  An empty match puts [repl]
    in front of the copied character. *)
Fixpoint sub_from (re : regex) (repl : string) (skip : nat) (s : string) : string :=
  match s with
  | EmptyString =>
      match skip, match_here re EmptyString with
      | O, Some _ => repl
      | _, _ => EmptyString
      end
  | String c s' =>
      match skip with
      | S k => sub_from re repl k s'
      | O =>
          match match_here re s with
          | Some (S n) => repl ++ sub_from re repl n s'
          | Some O => repl ++ String c (sub_from re repl 0 s')
          | None => String c (sub_from re repl 0 s')
          end
      end
  end.

(** [re.sub(pattern, repl, s)] *)
Definition sub (re : regex) (repl s : string) : string := sub_from re repl 0 s.

(** The pattern ["_\([^()]*\)"]. *)
Definition paren_group : regex :=
  [Lit "_"; Lit "("; StarNoneOf ["("; ")"]%char; Lit ")"].

End Re.

(** ** [clean_column] *)

Notation "x |> f" := (f x) (at level 50, left associativity, only parsing).

(** The chain up to [.replace("/", "-")]: the string on which
    [.replace("__", "_")] is called. *)
Definition separators_rewritten (col : string) : string :=
  col
  |> Str.replace "'s" ""
  |> Str.replace " - " "_"
  |> Str.replace " " "_"
  |> Str.replace "/" "-".

Definition clean_column (col : string) : string :=
  let col :=
    separators_rewritten col
    |> Str.replace "__" "_"
    |> Str.lower
    |> Str.replace "graduation_rate" "gradrate"
    |> Str.replace "_within_" "_"
    |> Str.replace "two_or_more_races" "multirace"
    |> Str.replace "_of_institution" ""
    |> Str.replace "_location" ""
    |> Str.replace "_or_post_office_box" ""
    |> Str.replace "_of_" "_"
    |> Str.replace "_that_are_" "_" in
  Re.sub Re.paren_group "" col.

(** ** Faults and the error monad *)

(** The exceptions of the steps up to the write: a failed member selection,
    a failed lookup by label, and whatever [pd.read_csv] raises. *)
Inductive fault : Type :=
  | IndexError
  | KeyError (key : string)
  | ParserError.

Inductive result (A : Type) : Type :=
  | Ok (a : A)
  | Err (e : fault).

Arguments Ok {A} a.
Arguments Err {A} e.

Definition bind {A B : Type} (r : result A) (k : A -> result B) : result B :=
  match r with
  | Ok a => k a
  | Err e => Err e
  end.

Notation "x <- r ;; k" := (bind r (fun x => k))
  (at level 61, r at next level, right associativity).

(** A [for] loop that threads a state and stops at the first fault. *)
Fixpoint foldM {A S : Type} (step : S -> A -> result S) (l : list A) (s : S)
  : result S :=
  match l with
  | [] => Ok s
  | a :: l' => s' <- step s a ;; foldM step l' s'
  end.

(** A list comprehension whose element expression can fault. *)
Fixpoint mapM {A B : Type} (f : A -> result B) (l : list A) : result (list B) :=
  match l with
  | [] => Ok []
  | a :: l' => b <- f a ;; bs <- mapM f l' ;; Ok (b :: bs)
  end.

(** [l[0]] *)
Definition first {A : Type} (l : list A) : result A :=
  match l with
  | [] => Err IndexError
  | a :: _ => Ok a
  end.

(** ** Cells and dictionaries *)

(** A value code or a label as [pd.read_csv] parses it. *)
Inductive scalar : Type :=
  | Num (n : Z)
  | Text (s : string).

(** A cell; [None] is the missing marker NaN. *)
Definition cell : Type := option scalar.

Definition scalar_eqb (a b : scalar) : bool :=
  match a, b with
  | Num m, Num n => Z.eqb m n
  | Text s, Text t => String.eqb s t
  | _, _ => false
  end.

(** Types usable as dictionary keys. *)
Class Key (K : Type) : Type := key_eqb : K -> K -> bool.

(** The comparison of keys decides equality. *)
Class KeyLaws (K : Type) `{Key K} : Prop :=
  key_eqb_eq : forall x y : K, key_eqb x y = true <-> x = y.

#[export] Instance string_Key : Key string := String.eqb.
#[export] Instance scalar_Key : Key scalar := scalar_eqb.

Module Dict.
Section Dict.
Context {K V : Type} `{Key K}.

(** Entries in insertion order, one per key. *)
Definition t : Type := list (K * V).

Definition empty : t := [].

(** [d.get(k)] *)
Fixpoint get (d : t) (k : K) : option V :=
  match d with
  | [] => None
  | (k', v) :: d' => if key_eqb k' k then Some v else get d' k
  end.

(** [d[k] = v]: an existing key keeps its place and takes the new value,
    a new key goes to the end. *)
Fixpoint set (d : t) (k : K) (v : V) : t :=
  match d with
  | [] => [(k, v)]
  | (k', v') :: d' =>
      if key_eqb k' k then (k', v) :: d' else (k', v') :: set d' k v
  end.

(** [d.keys()] *)
Definition keys (d : t) : list K := map fst d.
End Dict.
Arguments t : clear implicits.
End Dict.

(** [labels[key]] for a dictionary keyed by strings. *)
Definition dict_getitem {V : Type} (d : Dict.t string V) (key : string)
  : result V :=
  match Dict.get d key with
  | Some v => Ok v
  | None => Err (KeyError key)
  end.

(** ** Tables *)

(** A column: its label and its cells, one per row. *)
Record Series : Type := mkSeries { name : string; values : list cell }.

(** A frame: its columns from left to right. *)
Definition DataFrame : Type := list Series.

(** [df.columns] *)
Definition columns (df : DataFrame) : list string := map name df.

(** [df[key]] *)
Definition getitem (df : DataFrame) (key : string) : result Series :=
  match find (fun s => String.eqb (name s) key) df with
  | Some s => Ok s
  | None => Err (KeyError key)
  end.

(** [df[keys]] for a list of labels. *)
Definition getitems (df : DataFrame) (keys : list string) : result DataFrame :=
  mapM (getitem df) keys.

(** [df[key] = s]: an existing column takes the new cells in place, a new
    label adds a column on the right. *)
Fixpoint setitem (df : DataFrame) (key : string) (s : Series) : DataFrame :=
  match df with
  | [] => [mkSeries key (values s)]
  | c :: df' =>
      if String.eqb (name c) key then mkSeries key (values s) :: df'
      else c :: setitem df' key s
  end.

(** What [Series.map] with a dictionary does to one cell: the looked-up
    value, NaN when the cell is no key of the dictionary. *)
Definition map_cell (mapping : Dict.t scalar cell) (v : cell) : cell :=
  match v with
  | Some code =>
      match Dict.get mapping code with
      | Some label => label
      | None => None
      end
  | None => None
  end.

(** [s.map(mapping)] *)
Definition Series_map (s : Series) (mapping : Dict.t scalar cell) : Series :=
  mkSeries (name s) (map (map_cell mapping) (values s)).

(** One record of the value-labels file. *)
Record label_row : Type := mkRow {
  VariableName : string;
  Value : scalar;
  ValueLabel : cell
}.

Definition LabelTable : Type := list label_row.

(** [value_labels["VariableName"] == var], row by row. *)
Definition has_variable (var : string) (row : label_row) : bool :=
  String.eqb (VariableName row) var.

(** The rows whose [Value] is [code]. *)
Definition has_code (code : scalar) (row : label_row) : bool :=
  scalar_eqb (Value row) code.

(** [Series.unique()]: the distinct values in order of first appearance. *)
Fixpoint unique (l : list string) : list string :=
  match l with
  | [] => []
  | x :: l' => x :: filter (fun y => negb (String.eqb x y)) (unique l')
  end.

Definition LabelMap : Type := Dict.t string (Dict.t scalar cell).

(** ** The steps of [clean_data] *)

(** The opened archive: its member names in archive order, and what
    [pd.read_csv] makes of a member read as the data file or as the
    value-labels file. *)
Record ZipFile : Type := mkZip {
  namelist : list string;
  read_data : string -> result DataFrame;
  read_labels : string -> result LabelTable
}.

(** [[file for file in ZIPPED_FILE.namelist() if needle in file][0]] *)
Definition select_member (needle : string) (zf : ZipFile) : result string :=
  first (filter (Str.contains needle) (namelist zf)).

(** [data_cols] and [data[data_cols].copy()] *)
Definition data_cols (data : DataFrame) : list string :=
  filter (fun col => negb (Str.contains "Unnamed" col)) (columns data).

Definition drop_unnamed (data : DataFrame) : result DataFrame :=
  getitems data (data_cols data).

(** The inner loop over [working_df.itertuples()]. *)
Definition build_mapping (working_df : LabelTable) : Dict.t scalar cell :=
  fold_left (fun mapping row => Dict.set mapping (Value row) (ValueLabel row))
            working_df Dict.empty.

(** The loop over [var_names] that fills [labels]. *)
Definition build_labels (value_labels : LabelTable) : LabelMap :=
  let var_names := unique (map VariableName value_labels) in
  fold_left
    (fun labels var =>
       let mask := has_variable var in
       let working_df := filter mask value_labels in
       Dict.set labels var (build_mapping working_df))
    var_names Dict.empty.

(** [data[key] = data[key].map(labels[key])] *)
Definition substitute_key (labels : LabelMap) (data : DataFrame) (key : string)
  : result DataFrame :=
  s <- getitem data key ;;
  mapping <- dict_getitem labels key ;;
  Ok (setitem data key (Series_map s mapping)).

(** [for key in labels.keys(): ...] *)
Definition substitute (labels : LabelMap) (data : DataFrame) : result DataFrame :=
  foldM (substitute_key labels) (Dict.keys labels) data.

(** [data.columns = [clean_column(col) for col in data.columns]] *)
Definition rename_columns (f : string -> string) (data : DataFrame) : DataFrame :=
  map (fun s => mkSeries (f (name s)) (values s)) data.

(** Everything [clean_data] does before it writes. *)
Definition cleaned (zf : ZipFile) : result DataFrame :=
  DATA_FILE <- select_member "Data" zf ;;
  VALUELABELS_FILE <- select_member "ValueLabels" zf ;;
  data <- read_data zf DATA_FILE ;;
  value_labels <- read_labels zf VALUELABELS_FILE ;;
  data <- drop_unnamed data ;;
  let labels := build_labels value_labels in
  data <- substitute labels data ;;
  Ok (rename_columns clean_column data).

(** A CSV file on disk. *)
Record file : Type := mkFile {
  directory : string;
  filename : string;
  contents : DataFrame
}.

(** What a run can change: the terminal and the files on disk. *)
Record world : Type := mkWorld { stdout : list string; files : list file }.

(** Paths are compared as they are spelled. *)
Definition same_path (dir fname : string) (f : file) : bool :=
  String.eqb (directory f) dir && String.eqb (filename f) fname.

(** [data.to_csv(OUTPUT_DIR / fname, ...)] when it succeeds: the file is
    created or replaced.  A fault of the write itself is not modelled. *)
Definition to_csv (data : DataFrame) (dir fname : string) (fs : list file)
  : list file :=
  mkFile dir fname data :: filter (fun f => negb (same_path dir fname f)) fs.

(** A run of the command: the fault it died of, if any, and the world it
    leaves.  [today] is the module-level date string. *)
Definition clean_data (today : string) (zf : ZipFile) (output_dir : string)
                      (w : world) : option fault * world :=
  match cleaned zf with
  | Err e => (Some e, w)
  | Ok data =>
      (None,
       mkWorld (stdout w ++ ["Saving file"])
               (to_csv data output_dir ("processed_data-" ++ today ++ ".csv")
                       (files w)))
  end.

(** ** The specification's wording, for comparison *)

Module Spec.

(** How far a group [(...)] without inner parentheses reaches: the number of
    characters up to and including the closing parenthesis. *)
Fixpoint group_body (s : string) : option nat :=
  match s with
  | EmptyString => None
  | String c s' =>
      if Ascii.eqb c ")" then Some 1
      else if Ascii.eqb c "(" then None
      else option_map S (group_body s')
  end.

(** Length of a group [_(...)] that starts the string. *)
Definition group_at (s : string) : option nat :=
  match s with
  | String "_" (String "(" s') => option_map (fun n => 2 + n) (group_body s')
  | _ => None
  end.

(** Removal of every such group, left to right. *)
Fixpoint remove_groups_from (skip : nat) (s : string) : string :=
  match s with
  | EmptyString => EmptyString
  | String c s' =>
      match skip with
      | S k => remove_groups_from k s'
      | O =>
          match group_at s with
          | Some n => remove_groups_from (n - 1) s'
          | None => String c (remove_groups_from 0 s')
          end
      end
  end.


(** The records of a (variable, code) pair, in table order. *)
Definition records_of (var : string) (code : scalar) (t : LabelTable)
  : LabelTable :=
  filter (fun row => has_variable var row && has_code code row) t.

(** A column after substitution as section 4.3 words it: under a key of the
    LabelMap every cell is looked up, any other column stays as it is. *)
Definition relabel (labels : LabelMap) (s : Series) : Series :=
  match Dict.get labels (name s) with
  | Some mapping => Series_map s mapping
  | None => s
  end.

End Spec.

(** ** Reducible patterns of a normalized name *)

(** The [old] arguments of the [replace] calls of [clean_column]. *)
Definition rewrite_sources : list string :=
  [ "'s"; " - "; " "; "/"; "__";
    "graduation_rate"; "_within_"; "two_or_more_races"; "_of_institution";
    "_location"; "_or_post_office_box"; "_of_"; "_that_are_" ].

(** [re.search(pattern, s) is not None] *)
Fixpoint search (re : Re.regex) (s : string) : bool :=
  match Re.match_here re s with
  | Some _ => true
  | None =>
      match s with
      | EmptyString => false
      | String _ s' => search re s'
      end
  end.

(** Some rewrite of the pipeline still finds its pattern in [s]. *)
Definition reducible (s : string) : bool :=
  existsb (fun old => Str.contains old s) rewrite_sources
  || search Re.paren_group s.

(** A run of [n] underscores. *)
Fixpoint underscores (n : nat) : string :=
  match n with
  | O => EmptyString
  | S n' => String "_" (underscores n')
  end.

(** Characters of the names ["a___b"], ["a__b"], ...: none of the later
    rewrites has all its characters among them. *)
Definition a_b_or_underscore (c : ascii) : bool :=
  Ascii.eqb c "a" || Ascii.eqb c "b" || Ascii.eqb c "_".

(** [LabelMap[var][code]], when both keys exist. *)
Definition label_of (labels : LabelMap) (var : string) (code : scalar)
  : option cell :=
  match Dict.get labels var with
  | Some mapping => Dict.get mapping code
  | None => None
  end.

(** A character of the ASCII range. *)
Definition is_ascii (c : ascii) : bool := Nat.ltb (nat_of_ascii c) 128.

(** ** Headers as Unicode strings *)

Module Unicode.

(** A Python [str] as the sequence of its code points. *)
Definition str : Type := list N.

(** The code points of a string literal of the script. *)
Definition of_string (s : string) : str :=
  map N_of_ascii (list_ascii_of_string s).

(** [s.startswith(old)] *)
Fixpoint prefix (old s : str) : bool :=
  match old, s with
  | [], _ => true
  | _ :: _, [] => false
  | a :: old', b :: s' => N.eqb a b && prefix old' s'
  end.

(** [s.replace("", new)] *)
Fixpoint replace_empty (new s : str) : str :=
  match s with
  | [] => new
  | c :: s' => new ++ c :: replace_empty new s'
  end.

(** The left-to-right scan of [str.replace] for a non-empty [old]; [skip]
    counts the code points of the occurrence just replaced that are still to
    be dropped. *)
Fixpoint replace_from (old new : str) (skip : nat) (s : str) : str :=
  match s with
  | [] => []
  | c :: s' =>
      match skip with
      | S k => replace_from old new k s'
      | O =>
          if prefix old s
          then new ++ replace_from old new (List.length old - 1) s'
          else c :: replace_from old new 0 s'
      end
  end.

(** [s.replace(old, new)] *)
Definition replace (old new s : str) : str :=
  match old with
  | [] => replace_empty new s
  | _ :: _ => replace_from old new 0 s
  end.

(** [s.replace(old, new)] for two literals of the script. *)
Definition replace_literal (old new : string) (s : str) : str :=
  replace (of_string old) (of_string new) s.

(** What [str.lower] makes of an ASCII code point. *)
Definition lower_ascii (c : N) : N :=
  if ((65 <=? c) && (c <=? 90))%N then (c + 32)%N else c.

Section Lower.

(** The lower-case mapping of the Unicode character database for code points
    beyond ASCII, which [str.lower] consults; it belongs to the Python
    runtime, not to the repository, and is taken as it comes.  It gives the
    code points that replace the code point [c] found at index [i] of the
    string [whole] (one code point can become several, and the capital sigma
    depends on its neighbours). *)
Variable lower_beyond_ascii : str -> nat -> N -> str.

Fixpoint lower_from (whole : str) (i : nat) (s : str) : str :=
  match s with
  | [] => []
  | c :: s' =>
      (if (c <? 128)%N then [lower_ascii c] else lower_beyond_ascii whole i c)
      ++ lower_from whole (S i) s'
  end.

(** [s.lower()] *)
Definition lower (s : str) : str := lower_from s 0 s.

End Lower.

(** One item of a pattern, over code points. *)
Inductive atom : Type :=
  | Lit (c : N)
  | StarNoneOf (excluded : list N).

Definition regex : Type := list atom.

Definition in_class (c : N) (cs : list N) : bool := existsb (N.eqb c) cs.

(** Backtracking match anchored at the start of [s]; the result is the number
    of code points matched. *)
Fixpoint match_here (re : regex) (s : str) : option nat :=
  match re with
  | [] => Some 0
  | Lit c :: re' =>
      match s with
      | [] => None
      | d :: s' => if N.eqb c d then option_map S (match_here re' s') else None
      end
  | StarNoneOf cs :: re' =>
      (fix star (t : str) : option nat :=
         match t with
         | [] => match_here re' []
         | d :: t' =>
             if in_class d cs then match_here re' t
             else match star t' with
                  | Some n => Some (S n)
                  | None => match_here re' t
                  end
         end) s
  end.

(** The scan of [re.sub]. *)
Fixpoint sub_from (re : regex) (repl : str) (skip : nat) (s : str) : str :=
  match s with
  | [] =>
      match skip, match_here re [] with
      | O, Some _ => repl
      | _, _ => []
      end
  | c :: s' =>
      match skip with
      | S k => sub_from re repl k s'
      | O =>
          match match_here re s with
          | Some (S n) => repl ++ sub_from re repl n s'
          | Some O => repl ++ c :: sub_from re repl 0 s'
          | None => c :: sub_from re repl 0 s'
          end
      end
  end.

(** [re.sub(pattern, repl, s)] *)
Definition sub (re : regex) (repl s : str) : str := sub_from re repl 0 s.

(** The code point of an ASCII character. *)
Definition cp (c : ascii) : N := N_of_ascii c.

(** The end of the pattern, [[^()]*\)]. *)
Definition body_then_close : regex :=
  [StarNoneOf [cp "("; cp ")"]; Lit (cp ")")].

(** The pattern ["_\([^()]*\)"]. *)
Definition paren_group : regex :=
  Lit (cp "_") :: Lit (cp "(") :: body_then_close.

(** A pattern item of [Re], read over code points. *)
Definition atom_of_ascii (a : Re.atom) : atom :=
  match a with
  | Re.Lit c => Lit (cp c)
  | Re.StarNoneOf cs => StarNoneOf (map cp cs)
  end.

(** [clean_column] on any Python string, given the Unicode lower-case
    mapping. *)
Definition clean_column (lower_beyond_ascii : str -> nat -> N -> str)
                        (col : str) : str :=
  let col :=
    col
    |> replace_literal "'s" ""
    |> replace_literal " - " "_"
    |> replace_literal " " "_"
    |> replace_literal "/" "-"
    |> replace_literal "__" "_"
    |> lower lower_beyond_ascii
    |> replace_literal "graduation_rate" "gradrate"
    |> replace_literal "_within_" "_"
    |> replace_literal "two_or_more_races" "multirace"
    |> replace_literal "_of_institution" ""
    |> replace_literal "_location" ""
    |> replace_literal "_or_post_office_box" ""
    |> replace_literal "_of_" "_"
    |> replace_literal "_that_are_" "_" in
  sub paren_group (of_string "") col.

End Unicode.

(** ** Section 4.4 of the specification, rule by rule *)

Module Rules.

Import Unicode.

(** "Replace literal [old] with [new]": reading from the left, an occurrence
    of [old] is replaced by [new] and the reading goes on behind it; where no
    occurrence starts, the code point is kept.  What has been written is not
    read again. *)
Inductive Replaced (old new : str) : str -> str -> Prop :=
  | Replaced_end : Replaced old new [] []
  | Replaced_here (rest out : str) :
      Replaced old new rest out ->
      Replaced old new (old ++ rest) (new ++ out)
  | Replaced_past (c : N) (s out : str) :
      (forall rest, c :: s <> old ++ rest) ->
      Replaced old new s out ->
      Replaced old new (c :: s) (c :: out).

Section Lowercase.

Variable lower_beyond_ascii : str -> nat -> N -> str.

(** "Lowercase the entire string": a capital letter A to Z becomes the small
    letter, 32 code points further; any other ASCII code point stays; a code
    point beyond ASCII becomes what the Unicode mapping gives at its place. *)
Inductive Lowercased (whole : str) : nat -> str -> str -> Prop :=
  | Lowercased_end (i : nat) : Lowercased whole i [] []
  | Lowercased_capital (i : nat) (c : N) (s out : str) :
      (65 <= c <= 90)%N ->
      Lowercased whole (S i) s out ->
      Lowercased whole i (c :: s) ((c + 32)%N :: out)
  | Lowercased_plain (i : nat) (c : N) (s out : str) :
      (c < 65 \/ 90 < c)%N -> (c < 128)%N ->
      Lowercased whole (S i) s out ->
      Lowercased whole i (c :: s) (c :: out)
  | Lowercased_beyond (i : nat) (c : N) (s out : str) :
      (128 <= c)%N ->
      Lowercased whole (S i) s out ->
      Lowercased whole i (c :: s) (lower_beyond_ascii whole i c ++ out).

End Lowercase.

(** A body without parentheses. *)
Definition paren_free (body : str) : Prop :=
  Forall (fun c => c <> cp "(" /\ c <> cp ")") body.

(** A group [_(...)] whose body has no parentheses. *)
Definition Group (g : str) : Prop :=
  exists body, paren_free body /\ g = cp "_" :: cp "(" :: body ++ [cp ")"].

(** "Remove any parenthesized group [_(...)] with no nested parentheses":
    reading from the left, a group is dropped and the reading goes on behind
    it; where no group starts, the code point is kept. *)
Inductive GroupsRemoved : str -> str -> Prop :=
  | GroupsRemoved_end : GroupsRemoved [] []
  | GroupsRemoved_here (g rest out : str) :
      Group g ->
      GroupsRemoved rest out ->
      GroupsRemoved (g ++ rest) out
  | GroupsRemoved_past (c : N) (s out : str) :
      (forall g rest, Group g -> c :: s <> g ++ rest) ->
      GroupsRemoved s out ->
      GroupsRemoved (c :: s) (c :: out).

(** One rule of the list in section 4.4. *)
Inductive rule : Type :=
  | Replace (old new : string)
  | Lowercase
  | RemoveGroups.

(** Rules 1 to 8, rule 7 with its eight rewrites in their order. *)
Definition rules : list rule :=
  [ Replace "'s" "";
    Replace " - " "_";
    Replace " " "_";
    Replace "/" "-";
    Replace "__" "_";
    Lowercase;
    Replace "graduation_rate" "gradrate";
    Replace "_within_" "_";
    Replace "two_or_more_races" "multirace";
    Replace "_of_institution" "";
    Replace "_location" "";
    Replace "_or_post_office_box" "";
    Replace "_of_" "_";
    Replace "_that_are_" "_";
    RemoveGroups ].

Section Normalized.

Variable lower_beyond_ascii : str -> nat -> N -> str.

(** [out] is what the rule makes of [s]. *)
Definition Applied (r : rule) (s out : str) : Prop :=
  match r with
  | Replace old new => Replaced (of_string old) (of_string new) s out
  | Lowercase => Lowercased lower_beyond_ascii s 0 s out
  | RemoveGroups => GroupsRemoved s out
  end.

(** [out] is what the rules make of [s], each applied to the output of the
    one before. *)
Fixpoint Normalized (rs : list rule) (s out : str) : Prop :=
  match rs with
  | [] => out = s
  | r :: rs' => exists mid, Applied r s mid /\ Normalized rs' mid out
  end.

End Normalized.

End Rules.

(** ** Sample inputs *)

Module Sample.

Definition value_labels : LabelTable :=
  [ mkRow "SECTOR" (Num 1) (Some (Text "Public"));
    mkRow "SECTOR" (Num 2) (Some (Text "Private not-for-profit")) ].

Definition data : DataFrame :=
  [ mkSeries "UnitID" [Some (Num 100654); Some (Num 100663)];
    mkSeries "SECTOR" [Some (Num 1); Some (Num 9)] ].

(** The export with the empty column [pd.read_csv] calls "Unnamed: 2". *)
Definition exported : DataFrame :=
  data ++ [mkSeries "Unnamed: 2" [None; None]].


(** Labels for a variable the data file does not carry. *)
Definition control_labels : LabelTable :=
  value_labels ++ [mkRow "CONTROL" (Num 1) (Some (Text "Public"))].

Definition archive (labels : LabelTable) : ZipFile :=
  mkZip ["Data_3-5-2020.csv"; "ValueLabels_3-5-2020.csv"]
        (fun _ => Ok exported) (fun _ => Ok labels).

Definition lowercase_archive : ZipFile :=
  mkZip ["data2020.csv"; "ValueLabels_3-5-2020.csv"]
        (fun _ => Ok exported) (fun _ => Ok value_labels).

Definition empty_world : world := mkWorld [] [].

End Sample.

(** ** Character classes of normalized names *)

Definition is_not (a : ascii) (c : ascii) : bool := negb (Ascii.eqb c a).

(** A character a normalized header can hold: no capital letter, no space,
    no slash. *)
Definition header_char (c : ascii) : bool :=
  Str.not_upper c && is_not " " c && is_not "/" c.

(** Neither parenthesis: what [[^()]] accepts. *)
Definition not_paren (c : ascii) : bool :=
  negb (Re.in_class c ["("; ")"]%char).

(** * Properties *)

(** ** Strings *)

Module StrFacts.

Lemma contains_cons (needle : string) (c : ascii) (hay : string) :
  Str.contains needle (String c hay)
  = String.prefix needle (String c hay) || Str.contains needle hay.
Proof. reflexivity. Qed.

Lemma replace_from_skip (old new : string) (k : nat) (c : ascii) (s : string) :
  Str.replace_from old new (S k) (String c s) = Str.replace_from old new k s.
Proof. reflexivity. Qed.

Lemma replace_from_scan (old new : string) (c : ascii) (s : string) :
  Str.replace_from old new 0 (String c s)
  = if String.prefix old (String c s)
    then (new ++ Str.replace_from old new (String.length old - 1) s)%string
    else String c (Str.replace_from old new 0 s).
Proof. reflexivity. Qed.

(** A replacement whose pattern does not occur changes nothing. *)
Lemma replace_from_absent (old new s : string) :
  Str.contains old s = false -> Str.replace_from old new 0 s = s.
Proof.
  induction s as [|c s IH]; intros Habs.
  - reflexivity.
  - rewrite contains_cons in Habs.
    apply orb_false_iff in Habs as [Hhead Htail].
    rewrite replace_from_scan, Hhead, (IH Htail).
    reflexivity.
Qed.

Lemma replace_absent (old new s : string) :
  Str.contains old s = false -> Str.replace old new s = s.
Proof.
  destruct old as [|a old]; intros Habs.
  - destruct s; discriminate Habs.
  - apply replace_from_absent, Habs.
Qed.

Lemma all_app (p : ascii -> bool) (s t : string) :
  Str.all p (s ++ t)%string = Str.all p s && Str.all p t.
Proof.
  induction s as [|c s IH]; simpl.
  - reflexivity.
  - rewrite IH. apply andb_assoc.
Qed.

Lemma all_replace_from (p : ascii -> bool) (old new : string) :
  Str.all p new = true ->
  forall (s : string) (k : nat),
    Str.all p s = true -> Str.all p (Str.replace_from old new k s) = true.
Proof.
  intros Hnew. induction s as [|c s IH]; intros k Hs.
  - reflexivity.
  - simpl in Hs. apply andb_true_iff in Hs as [Hc Hs].
    destruct k as [|k].
    + rewrite replace_from_scan.
      destruct (String.prefix old (String c s)).
      * rewrite all_app, Hnew. apply IH, Hs.
      * simpl. rewrite Hc. apply IH, Hs.
    + rewrite replace_from_skip. apply IH, Hs.
Qed.

Lemma all_replace_empty (p : ascii -> bool) (new s : string) :
  Str.all p new = true -> Str.all p s = true ->
  Str.all p (Str.replace_empty new s) = true.
Proof.
  intros Hnew. induction s as [|c s IH]; simpl; intros Hs.
  - exact Hnew.
  - apply andb_true_iff in Hs as [Hc Hs].
    rewrite all_app, Hnew. simpl. rewrite Hc. apply IH, Hs.
Qed.

Lemma all_replace (p : ascii -> bool) (old new s : string) :
  Str.all p new = true -> Str.all p s = true ->
  Str.all p (Str.replace old new s) = true.
Proof.
  intros Hnew Hs. destruct old; simpl.
  - apply all_replace_empty; assumption.
  - apply all_replace_from; assumption.
Qed.

Lemma lower_char_not_upper (c : ascii) : Str.not_upper (Str.lower_char c) = true.
Proof.
  destruct c as [[] [] [] [] [] [] [] []]; reflexivity.
Qed.

Lemma lower_not_upper (s : string) : Str.all Str.not_upper (Str.lower s) = true.
Proof.
  induction s as [|c s IH]; simpl.
  - reflexivity.
  - rewrite lower_char_not_upper. exact IH.
Qed.

Lemma lower_fixed (s : string) :
  Str.all Str.not_upper s = true -> Str.lower s = s.
Proof.
  induction s as [|c s IH]; simpl; intros Hs.
  - reflexivity.
  - apply andb_true_iff in Hs as [Hc Hs].
    rewrite (IH Hs). f_equal.
    unfold Str.lower_char. unfold Str.not_upper in Hc.
    destruct (Str.is_upper c); [discriminate Hc | reflexivity].
Qed.

End StrFacts.

(** ** The regular expression *)

Module ReFacts.

Lemma match_lit (c : ascii) (re : Re.regex) (d : ascii) (s : string) :
  Re.match_here (Re.Lit c :: re) (String d s)
  = if Ascii.eqb c d then option_map S (Re.match_here re s) else None.
Proof. reflexivity. Qed.

Lemma match_star_nil (cs : list ascii) (re : Re.regex) :
  Re.match_here (Re.StarNoneOf cs :: re) EmptyString
  = Re.match_here re EmptyString.
Proof. reflexivity. Qed.

Lemma match_star_cons (cs : list ascii) (re : Re.regex) (d : ascii) (t : string) :
  Re.match_here (Re.StarNoneOf cs :: re) (String d t)
  = if Re.in_class d cs then Re.match_here re (String d t)
    else match Re.match_here (Re.StarNoneOf cs :: re) t with
         | Some n => Some (S n)
         | None => Re.match_here re (String d t)
         end.
Proof. reflexivity. Qed.

Lemma sub_from_skip (re : Re.regex) (repl : string) (k : nat) (c : ascii)
                    (s : string) :
  Re.sub_from re repl (S k) (String c s) = Re.sub_from re repl k s.
Proof. reflexivity. Qed.

Lemma sub_from_scan (re : Re.regex) (repl : string) (c : ascii) (s : string) :
  Re.sub_from re repl 0 (String c s)
  = match Re.match_here re (String c s) with
    | Some (S n) => (repl ++ Re.sub_from re repl n s)%string
    | Some O => (repl ++ String c (Re.sub_from re repl 0 s))%string
    | None => String c (Re.sub_from re repl 0 s)
    end.
Proof. reflexivity. Qed.

(** The greedy star followed by [\)] stops at the first parenthesis: giving
    characters back never helps, since none of them is a [)]. *)
Lemma star_then_close (t : string) :
  Re.match_here [Re.StarNoneOf ["("; ")"]%char; Re.Lit ")"] t
  = Spec.group_body t.
Proof.
  induction t as [|d t IH].
  - reflexivity.
  - rewrite match_star_cons, IH, match_lit. simpl Spec.group_body.
    unfold Re.in_class. simpl existsb.
    destruct (Ascii.eqb_spec d ")") as [->|Hclose].
    + rewrite orb_true_r. reflexivity.
    + destruct (Ascii.eqb_spec d "(") as [->|Hopen].
      * reflexivity.
      * simpl orb.
        destruct (Ascii.eqb_spec ")" d) as [<-|_]; [contradiction|].
        destruct (Spec.group_body t); reflexivity.
Qed.

(** The pattern matches at the head of [s] exactly the groups of section 4.4,
    rule 8, with the same extent. *)
Lemma paren_group_at (s : string) :
  Re.match_here Re.paren_group s = Spec.group_at s.
Proof.
  unfold Re.paren_group.
  destruct s as [|c s]; [reflexivity|].
  rewrite match_lit.
  destruct (Ascii.eqb_spec "_" c) as [<-|Hc].
  - destruct s as [|d s]; [reflexivity|].
    rewrite match_lit.
    destruct (Ascii.eqb_spec "(" d) as [<-|Hd].
    + rewrite star_then_close. simpl Spec.group_at.
      destruct (Spec.group_body s); reflexivity.
    + simpl option_map.
      destruct d as [[] [] [] [] [] [] [] []]; try reflexivity.
      contradiction Hd; reflexivity.
  - destruct c as [[] [] [] [] [] [] [] []]; try reflexivity.
    contradiction Hc; reflexivity.
Qed.

Lemma group_at_long (s : string) (n : nat) :
  Spec.group_at s = Some n -> 3 <= n.
Proof.
  destruct s as [|c [|d s]]; simpl.
  - discriminate.
  - destruct c as [[] [] [] [] [] [] [] []]; discriminate.
  - destruct c as [[] [] [] [] [] [] [] []]; try discriminate.
    destruct d as [[] [] [] [] [] [] [] []]; try discriminate.
    destruct s as [|e s]; simpl; [discriminate|].
    destruct (Ascii.eqb e ")"); [intros [= <-]; lia|].
    destruct (Ascii.eqb e "("); [discriminate|].
    destruct (Spec.group_body s); simpl; [intros [= <-]; lia | discriminate].
Qed.

(** [re.sub] with the pattern and the empty replacement removes exactly
    those groups. *)
Lemma sub_paren_group (s : string) (k : nat) :
  Re.sub_from Re.paren_group "" k s = Spec.remove_groups_from k s.
Proof.
  revert k. induction s as [|c s IH]; intros k.
  - destruct k; reflexivity.
  - destruct k as [|k].
    + rewrite sub_from_scan, paren_group_at.
      change (Spec.remove_groups_from 0 (String c s))
        with (match Spec.group_at (String c s) with
              | Some n => Spec.remove_groups_from (n - 1) s
              | None => String c (Spec.remove_groups_from 0 s)
              end).
      destruct (Spec.group_at (String c s)) as [n|] eqn:Hg.
      * apply group_at_long in Hg.
        destruct n as [|n]; [lia|].
        simpl. rewrite Nat.sub_0_r. apply IH.
      * rewrite IH. reflexivity.
    + rewrite sub_from_skip. apply IH.
Qed.

Lemma search_cons (re : Re.regex) (c : ascii) (s : string) :
  search re (String c s)
  = match Re.match_here re (String c s) with
    | Some _ => true
    | None => search re s
    end.
Proof. reflexivity. Qed.

(** Without a match anywhere [re.sub] returns its argument. *)
Lemma sub_absent (re : Re.regex) (repl s : string) :
  search re s = false -> Re.sub re repl s = s.
Proof.
  unfold Re.sub. induction s as [|c s IH]; intros Habs.
  - simpl in *. destruct (Re.match_here re ""); [discriminate|reflexivity].
  - rewrite search_cons in Habs. rewrite sub_from_scan.
    destruct (Re.match_here re (String c s)); [discriminate|].
    rewrite (IH Habs). reflexivity.
Qed.

Lemma all_sub_from (p : ascii -> bool) (re : Re.regex) (repl : string) :
  Str.all p repl = true ->
  forall (s : string) (k : nat),
    Str.all p s = true -> Str.all p (Re.sub_from re repl k s) = true.
Proof.
  intros Hrepl. induction s as [|c s IH]; intros k Hs.
  - simpl. destruct k; [|reflexivity].
    destruct (Re.match_here re ""); [exact Hrepl|reflexivity].
  - simpl in Hs. apply andb_true_iff in Hs as [Hc Hs].
    destruct k as [|k].
    + rewrite sub_from_scan.
      destruct (Re.match_here re (String c s)) as [[|n]|].
      * rewrite StrFacts.all_app, Hrepl. simpl. rewrite Hc. apply IH, Hs.
      * rewrite StrFacts.all_app, Hrepl. apply IH, Hs.
      * simpl. rewrite Hc. apply IH, Hs.
    + rewrite sub_from_skip. apply IH, Hs.
Qed.

End ReFacts.

(** ** The column name normalizer *)

Module Normalizer.

Lemma prefix_all (p : ascii -> bool) (old s : string) :
  String.prefix old s = true -> Str.all p s = true -> Str.all p old = true.
Proof.
  revert s. induction old as [|a old IH]; intros s Hpre Hs.
  - reflexivity.
  - destruct s as [|b s]; [discriminate Hpre|].
    simpl in Hpre, Hs.
    destruct (ascii_dec a b) as [->|_]; [|discriminate Hpre].
    apply andb_true_iff in Hs as [Hb Hs].
    simpl. rewrite Hb. exact (IH s Hpre Hs).
Qed.

(** An occurrence consists of characters of the string it occurs in. *)
Lemma contains_all (p : ascii -> bool) (old s : string) :
  Str.contains old s = true -> Str.all p s = true -> Str.all p old = true.
Proof.
  induction s as [|c s IH]; intros Hocc Hs.
  - simpl in Hocc. rewrite orb_false_r in Hocc.
    exact (prefix_all p old "" Hocc Hs).
  - rewrite StrFacts.contains_cons in Hocc.
    apply orb_true_iff in Hocc as [Hpre|Hocc].
    + exact (prefix_all p old _ Hpre Hs).
    + simpl in Hs. apply andb_true_iff in Hs as [_ Hs]. exact (IH Hocc Hs).
Qed.

Lemma absent_by_alphabet (p : ascii -> bool) (old s : string) :
  Str.all p old = false -> Str.all p s = true -> Str.contains old s = false.
Proof.
  intros Hold Hs. destruct (Str.contains old s) eqn:Hocc; [|reflexivity].
  rewrite (contains_all p old s Hocc Hs) in Hold. discriminate Hold.
Qed.

(** A match of the pattern starts with ["_("]. *)
Lemma search_paren_group (s : string) :
  search Re.paren_group s = true -> Str.contains "_(" s = true.
Proof.
  induction s as [|c s IH]; intros Hm.
  - discriminate Hm.
  - rewrite ReFacts.search_cons, ReFacts.paren_group_at in Hm.
    rewrite StrFacts.contains_cons.
    destruct (Spec.group_at (String c s)) eqn:Hg.
    + destruct c as [[] [] [] [] [] [] [] []]; try discriminate Hg.
      destruct s as [|d s]; [discriminate Hg|].
      destruct d as [[] [] [] [] [] [] [] []]; try discriminate Hg.
      destruct s; reflexivity.
    + rewrite (IH Hm). apply orb_true_r.
Qed.

Lemma clean_column_not_upper (col : string) :
  Str.all Str.not_upper (clean_column col) = true.
Proof.
  unfold clean_column.
  apply ReFacts.all_sub_from; [reflexivity|].
  repeat (apply StrFacts.all_replace; [reflexivity|]).
  apply StrFacts.lower_not_upper.
Qed.

(** A lower-case name in which no rewrite finds its pattern is a fixed point. *)
Lemma clean_column_fixed (y : string) :
  reducible y = false -> Str.all Str.not_upper y = true -> clean_column y = y.
Proof.
  intros Hred Hlow.
  unfold reducible in Hred. apply orb_false_iff in Hred as [Hsrc Hgrp].
  unfold rewrite_sources in Hsrc. cbn [existsb] in Hsrc.
  repeat (apply orb_false_iff in Hsrc as [? Hsrc]).
  unfold clean_column, separators_rewritten.
  repeat match goal with
         | H : Str.contains ?old y = false |- _ =>
             rewrite (StrFacts.replace_absent old _ y H); clear H
         end.
  rewrite (StrFacts.lower_fixed y Hlow).
  repeat match goal with
         | H : Str.contains ?old y = false |- _ =>
             rewrite (StrFacts.replace_absent old _ y H); clear H
         end.
  apply ReFacts.sub_absent, Hgrp.
Qed.

(** Step 5 on a run of underscores followed by another character: each pair
    becomes one underscore, a last odd one stays. *)
Lemma collapse_run (n : nat) :
  Str.replace_from "__" "_" 0 (underscores n ++ "b")
  = (underscores (Nat.div2 (S n)) ++ "b")%string.
Proof.
  induction n as [n IH] using (well_founded_induction lt_wf).
  destruct n as [|[|n]]; [reflexivity | reflexivity |].
  change (underscores (S (S n)) ++ "b")%string
    with (String "_" (String "_" (underscores n ++ "b"))).
  rewrite StrFacts.replace_from_scan.
  replace (String.prefix "__" (String "_" (String "_" (underscores n ++ "b"))))
    with true by (destruct (underscores n ++ "b")%string; reflexivity).
  cbn [String.length Nat.sub].
  rewrite StrFacts.replace_from_skip, (IH n) by lia.
  reflexivity.
Qed.

Lemma underscores_alphabet (n : nat) :
  Str.all a_b_or_underscore (underscores n) = true.
Proof. induction n; simpl; auto. Qed.

Lemma underscores_inj (m n : nat) : underscores m = underscores n -> m = n.
Proof.
  revert n. induction m as [|m IH]; destruct n as [|n]; simpl; intros Heq;
    try reflexivity; try discriminate Heq.
  injection Heq as Heq. f_equal. exact (IH n Heq).
Qed.

Lemma underscores_then_b (m n : nat) :
  (underscores m ++ "b")%string = (underscores n ++ "b")%string -> m = n.
Proof.
  revert n. induction m as [|m IH]; destruct n as [|n]; simpl; intros Heq;
    try reflexivity; try discriminate Heq.
  injection Heq as Heq. f_equal. exact (IH n Heq).
Qed.

Lemma div2_run (n : nat) : 3 <= n -> 2 <= Nat.div2 (S n) < n.
Proof.
  intros Hn. rewrite Nat.div2_div.
  pose proof (Nat.div_mod_eq (S n) 2) as Hdiv.
  pose proof (Nat.mod_upper_bound (S n) 2) as Hmod.
  lia.
Qed.

End Normalizer.

Module NormalizerClaims.
Import Normalizer.

Lemma all_weaken (p q : ascii -> bool) (s : string) :
  (forall c, p c = true -> q c = true) ->
  Str.all p s = true -> Str.all q s = true.
Proof.
  intros Hpq. induction s as [|c s IH]; simpl; intros Hs.
  - reflexivity.
  - apply andb_true_iff in Hs as [Hc Hs].
    rewrite (Hpq c Hc). exact (IH Hs).
Qed.

Lemma alphabet_not_upper (c : ascii) :
  a_b_or_underscore c = true -> Str.not_upper c = true.
Proof.
  destruct c as [[] [] [] [] [] [] [] []]; intros H;
    first [reflexivity | discriminate H].
Qed.

(** From [.lower()] on, nothing happens to a name over a, b and underscore. *)
Lemma rest_fixed_on_alphabet (z : string) :
  Str.all a_b_or_underscore z = true ->
  Re.sub Re.paren_group ""
    (z
     |> Str.lower
     |> Str.replace "graduation_rate" "gradrate"
     |> Str.replace "_within_" "_"
     |> Str.replace "two_or_more_races" "multirace"
     |> Str.replace "_of_institution" ""
     |> Str.replace "_location" ""
     |> Str.replace "_or_post_office_box" ""
     |> Str.replace "_of_" "_"
     |> Str.replace "_that_are_" "_") = z.
Proof.
  intros Hz.
  rewrite (StrFacts.lower_fixed z)
    by (apply (all_weaken a_b_or_underscore); [apply alphabet_not_upper | exact Hz]).
  repeat (rewrite (StrFacts.replace_absent _ _ z)
            by (apply (absent_by_alphabet a_b_or_underscore);
                [reflexivity | exact Hz])).
  apply ReFacts.sub_absent.
  destruct (search Re.paren_group z) eqn:Hm; [|reflexivity].
  apply search_paren_group in Hm.
  rewrite (absent_by_alphabet a_b_or_underscore "_(" z) in Hm;
    [discriminate Hm | reflexivity | exact Hz].
Qed.

(** C4. The header ["Graduation Rate - Women (2020)"] is normalized to
    ["gradrate_women"]. *)
Theorem clean_column_graduation_rate_women :
  clean_column "Graduation Rate - Women (2020)" = "gradrate_women".
Proof. vm_compute. reflexivity. Qed.

(** C5. When no rewrite of the pipeline finds its pattern in the normalized
    name (no [old] string of a [replace] occurs in it and the regular
    expression matches nowhere), normalizing it again returns it unchanged. *)
Theorem clean_column_idempotent (x : string) :
  reducible (clean_column x) = false ->
  clean_column (clean_column x) = clean_column x.
Proof.
  intros Hred.
  apply clean_column_fixed; [exact Hred | apply clean_column_not_upper].
Qed.

Lemma clean_column_idempotent_witness :
  reducible (clean_column "Graduation Rate - Women (2020)") = false
  /\ clean_column (clean_column "Graduation Rate - Women (2020)")
     = clean_column "Graduation Rate - Women (2020)".
Proof.
  split.
  - vm_compute. reflexivity.
  - apply (clean_column_idempotent "Graduation Rate - Women (2020)").
    vm_compute. reflexivity.
Defined.

(** C6. [.replace("__", "_")] runs once: a name that reaches it as [a], a run
    of [n >= 3] underscores, [b] leaves [clean_column] with a run of
    [(n + 1) / 2 >= 2] underscores, so never as ["a_b"]; for ["a___b"] the
    result is ["a__b"]. *)
Theorem collapse_is_single_pass (n : nat) (col : string) :
  3 <= n ->
  separators_rewritten col = ("a" ++ underscores n ++ "b")%string ->
  clean_column col = ("a" ++ underscores (Nat.div2 (S n)) ++ "b")%string
  /\ 2 <= Nat.div2 (S n) < n
  /\ clean_column col <> "a_b".
Proof.
  intros Hn Hcol.
  assert (Hres : clean_column col
                 = ("a" ++ underscores (Nat.div2 (S n)) ++ "b")%string).
  { unfold clean_column. rewrite Hcol.
    replace (Str.replace "__" "_" ("a" ++ underscores n ++ "b"))
      with ("a" ++ underscores (Nat.div2 (S n)) ++ "b")%string.
    - apply rest_fixed_on_alphabet.
      simpl. rewrite StrFacts.all_app, underscores_alphabet. reflexivity.
    - unfold Str.replace. simpl append.
      rewrite StrFacts.replace_from_scan.
      replace (String.prefix "__" (String "a" (underscores n ++ "b")))
        with false by reflexivity.
      rewrite collapse_run. reflexivity. }
  pose proof (div2_run n Hn) as Hrun.
  split; [exact Hres | split; [lia|]].
  rewrite Hres. intros Heq.
  change "a_b" with ("a" ++ underscores 1 ++ "b")%string in Heq.
  injection Heq as Heq.
  apply (underscores_then_b (Nat.div2 (S n)) 1) in Heq. lia.
Qed.

Lemma collapse_is_single_pass_witness :
  separators_rewritten "a _ b" = "a___b"
  /\ clean_column "a _ b" = "a__b"
  /\ clean_column "a _ b" <> "a_b".
Proof.
  assert (H3 : 3 <= 3) by lia.
  assert (Hsep : separators_rewritten "a _ b"
                 = ("a" ++ underscores 3 ++ "b")%string)
    by (vm_compute; reflexivity).
  destruct (collapse_is_single_pass 3 "a _ b" H3 Hsep) as [Hres [_ Hne]].
  split; [vm_compute; reflexivity | split; [exact Hres | exact Hne]].
Defined.

End NormalizerClaims.

(** ** Dictionaries *)

#[export] Instance string_KeyLaws : KeyLaws string.
Proof. exact String.eqb_eq. Qed.

#[export] Instance scalar_KeyLaws : KeyLaws scalar.
Proof.
  intros [m|s] [n|t]; unfold key_eqb, scalar_Key; simpl; split; intros Heq;
    try discriminate Heq.
  - apply Z.eqb_eq in Heq. congruence.
  - injection Heq as ->. apply Z.eqb_refl.
  - apply String.eqb_eq in Heq. congruence.
  - injection Heq as ->. apply String.eqb_refl.
Qed.

Module DictFacts.
Section DictFacts.
Context {K V : Type} `{KeyLaws K}.

Lemma key_eqb_refl (k : K) : key_eqb k k = true.
Proof. apply key_eqb_eq. reflexivity. Qed.

Lemma key_eqb_neq (k k' : K) : k <> k' -> key_eqb k k' = false.
Proof.
  intros Hne. destruct (key_eqb k k') eqn:Heq; [|reflexivity].
  apply key_eqb_eq in Heq. contradiction.
Qed.

Lemma get_set_same (d : Dict.t K V) (k : K) (v : V) :
  Dict.get (Dict.set d k v) k = Some v.
Proof.
  induction d as [|[k' v'] d IH]; simpl.
  - rewrite key_eqb_refl. reflexivity.
  - destruct (key_eqb k' k) eqn:Heq; simpl; rewrite Heq.
    + reflexivity.
    + exact IH.
Qed.

Lemma get_set_other (d : Dict.t K V) (k k' : K) (v : V) :
  k <> k' -> Dict.get (Dict.set d k v) k' = Dict.get d k'.
Proof.
  intros Hne. induction d as [|[k0 v0] d IH]; simpl.
  - rewrite (key_eqb_neq k k' Hne). reflexivity.
  - destruct (key_eqb k0 k) eqn:Heq; simpl.
    + apply key_eqb_eq in Heq. subst k0.
      rewrite (key_eqb_neq k k' Hne). reflexivity.
    + rewrite IH. reflexivity.
Qed.

Lemma get_some_in_keys (d : Dict.t K V) (k : K) (v : V) :
  Dict.get d k = Some v -> In k (Dict.keys d).
Proof.
  induction d as [|[k' v'] d IH]; simpl; intros Hget.
  - discriminate Hget.
  - destruct (key_eqb k' k) eqn:Heq.
    + left. apply key_eqb_eq, Heq.
    + right. exact (IH Hget).
Qed.

Lemma in_keys_get (d : Dict.t K V) (k : K) :
  In k (Dict.keys d) -> exists v, Dict.get d k = Some v.
Proof.
  induction d as [|[k' v'] d IH]; simpl; intros Hin.
  - contradiction.
  - destruct (key_eqb k' k) eqn:Heq.
    + exists v'. reflexivity.
    + destruct Hin as [->|Hin].
      * rewrite key_eqb_refl in Heq. discriminate Heq.
      * exact (IH Hin).
Qed.

Lemma get_none_not_in_keys (d : Dict.t K V) (k : K) :
  Dict.get d k = None -> ~ In k (Dict.keys d).
Proof.
  intros Hget Hin. destruct (in_keys_get d k Hin) as [v Hv]. congruence.
Qed.

Lemma keys_set_new (d : Dict.t K V) (k : K) (v : V) :
  ~ In k (Dict.keys d) -> Dict.keys (Dict.set d k v) = Dict.keys d ++ [k].
Proof.
  induction d as [|[k' v'] d IH]; simpl; intros Hnew.
  - reflexivity.
  - rewrite key_eqb_neq by tauto. simpl. f_equal. apply IH. tauto.
Qed.

(** A loop of assignments [d[k] = f(k)]. *)
Lemma get_fold_set (f : K -> V) (ks : list K) (d : Dict.t K V) (k : K) :
  Dict.get (fold_left (fun d k => Dict.set d k (f k)) ks d) k
  = if existsb (key_eqb k) ks then Some (f k) else Dict.get d k.
Proof.
  revert d. induction ks as [|k0 ks IH]; intros d; simpl.
  - reflexivity.
  - rewrite IH. destruct (existsb (key_eqb k) ks).
    + rewrite orb_true_r. reflexivity.
    + rewrite orb_false_r. destruct (key_eqb k k0) eqn:Heq.
      * apply key_eqb_eq in Heq. subst k0. apply get_set_same.
      * apply get_set_other. intros ->.
        rewrite key_eqb_refl in Heq. discriminate Heq.
Qed.

Lemma keys_fold_set (f : K -> V) (ks : list K) (d : Dict.t K V) :
  NoDup (Dict.keys d ++ ks) ->
  Dict.keys (fold_left (fun d k => Dict.set d k (f k)) ks d)
  = Dict.keys d ++ ks.
Proof.
  revert d. induction ks as [|k0 ks IH]; intros d Hnd; simpl.
  - symmetry. apply app_nil_r.
  - assert (Hnew : ~ In k0 (Dict.keys d)).
    { intros Hin. apply NoDup_remove_2 in Hnd. apply Hnd.
      apply in_or_app. left. exact Hin. }
    rewrite IH; rewrite (keys_set_new d k0 (f k0) Hnew).
    + rewrite <- app_assoc. reflexivity.
    + rewrite <- app_assoc. exact Hnd.
Qed.

End DictFacts.
End DictFacts.

(** ** Lists *)

Module ListFacts.

Lemma find_app {A : Type} (f : A -> bool) (l l' : list A) :
  find f (l ++ l')
  = match find f l with
    | Some x => Some x
    | None => find f l'
    end.
Proof.
  induction l as [|x l IH]; simpl.
  - reflexivity.
  - destruct (f x); [reflexivity | exact IH].
Qed.

Lemma find_filter {A : Type} (f g : A -> bool) (l : list A) :
  find f (filter g l) = find (fun x => g x && f x) l.
Proof.
  induction l as [|x l IH]; simpl.
  - reflexivity.
  - destruct (g x); simpl; [|exact IH].
    destruct (f x); [reflexivity | exact IH].
Qed.

Lemma hd_error_filter {A : Type} (f : A -> bool) (l : list A) :
  hd_error (filter f l) = find f l.
Proof.
  induction l as [|x l IH]; simpl.
  - reflexivity.
  - destruct (f x); [reflexivity | exact IH].
Qed.

Lemma existsb_eqb_in (x : string) (l : list string) :
  existsb (String.eqb x) l = true <-> In x l.
Proof.
  rewrite existsb_exists. split.
  - intros [y [Hin Heq]]. apply String.eqb_eq in Heq. subst y. exact Hin.
  - intros Hin. exists x. split; [exact Hin | apply String.eqb_refl].
Qed.

Lemma in_unique (x : string) (l : list string) : In x (unique l) <-> In x l.
Proof.
  induction l as [|y l IH]; simpl.
  - tauto.
  - rewrite filter_In, IH. split.
    + intros [Heq|[Hin _]]; auto.
    + intros [Heq|Hin]; auto.
      destruct (String.eqb_spec y x) as [Heq|Hne]; auto.
  Qed.

Lemma NoDup_unique (l : list string) : NoDup (unique l).
Proof.
  induction l as [|y l IH]; simpl.
  - constructor.
  - constructor.
    + rewrite filter_In. intros [_ Hne].
      rewrite String.eqb_refl in Hne. discriminate Hne.
    + apply NoDup_filter, IH.
Qed.

End ListFacts.

(** ** The label map *)

Module Labels.

(** The inner loop leaves under each code the label of the last row that
    carries it. *)
Lemma get_fold_rows (rows : LabelTable) (d : Dict.t scalar cell) (code : scalar) :
  Dict.get
    (fold_left (fun mapping row => Dict.set mapping (Value row) (ValueLabel row))
               rows d) code
  = match find (has_code code) (rev rows) with
    | Some row => Some (ValueLabel row)
    | None => Dict.get d code
    end.
Proof.
  revert d. induction rows as [|r rows IH]; intros d; simpl.
  - reflexivity.
  - rewrite IH, ListFacts.find_app.
    destruct (find (has_code code) (rev rows)); [reflexivity|].
    simpl. unfold has_code at 1.
    destruct (scalar_eqb (Value r) code) eqn:Heq.
    + apply (key_eqb_eq (K := scalar)) in Heq. rewrite <- Heq.
      apply DictFacts.get_set_same.
    + apply DictFacts.get_set_other. intros Hsame.
      pose proof (proj2 (key_eqb_eq (K := scalar) (Value r) code) Hsame) as Ht.
      unfold key_eqb, scalar_Key in Ht. rewrite Heq in Ht. discriminate Ht.
Qed.

Lemma get_build_mapping (rows : LabelTable) (code : scalar) :
  Dict.get (build_mapping rows) code
  = option_map ValueLabel (find (has_code code) (rev rows)).
Proof.
  unfold build_mapping. rewrite get_fold_rows.
  destruct (find (has_code code) (rev rows)); reflexivity.
Qed.

Lemma get_build_labels (t : LabelTable) (var : string) :
  Dict.get (build_labels t) var
  = if existsb (String.eqb var) (map VariableName t)
    then Some (build_mapping (filter (has_variable var) t))
    else None.
Proof.
  unfold build_labels.
  rewrite (DictFacts.get_fold_set
             (fun var => build_mapping (filter (has_variable var) t))).
  change (key_eqb var) with (String.eqb var).
  destruct (existsb (String.eqb var) (unique (map VariableName t))) eqn:Hu;
    destruct (existsb (String.eqb var) (map VariableName t)) eqn:Hm;
    try reflexivity.
  - apply (proj1 (ListFacts.existsb_eqb_in _ _)) in Hu.
    apply (proj1 (ListFacts.in_unique _ _)) in Hu.
    apply (proj2 (ListFacts.existsb_eqb_in _ _)) in Hu. congruence.
  - apply (proj1 (ListFacts.existsb_eqb_in _ _)) in Hm.
    apply (proj2 (ListFacts.in_unique _ _)) in Hm.
    apply (proj2 (ListFacts.existsb_eqb_in _ _)) in Hm. congruence.
Qed.

(** The keys of the label map are the distinct variable names, in order of
    first appearance. *)
Lemma keys_build_labels (t : LabelTable) :
  Dict.keys (build_labels t) = unique (map VariableName t).
Proof.
  unfold build_labels.
  rewrite (DictFacts.keys_fold_set
             (fun var => build_mapping (filter (has_variable var) t))).
  - reflexivity.
  - apply ListFacts.NoDup_unique.
Qed.

Lemma in_keys_build_labels (t : LabelTable) (var : string) :
  In var (Dict.keys (build_labels t)) <-> In var (map VariableName t).
Proof. rewrite keys_build_labels. apply ListFacts.in_unique. Qed.

Lemma NoDup_keys_build_labels (t : LabelTable) :
  NoDup (Dict.keys (build_labels t)).
Proof. rewrite keys_build_labels. apply ListFacts.NoDup_unique. Qed.

(** C8, as the code has it.  For every label table and every pair of a
    variable name and a code, the entry [labels[var][code]] built by the
    loops is the [ValueLabel] of the last record of that pair in table order
    (absent when the pair has no record); the map is a function of the table. *)
Theorem build_labels_last_record_wins (t : LabelTable) (var : string)
                                      (code : scalar) :
  label_of (build_labels t) var code
  = option_map ValueLabel (hd_error (rev (Spec.records_of var code t))).
Proof.
  unfold Spec.records_of.
  rewrite <- filter_rev, ListFacts.hd_error_filter.
  unfold label_of. rewrite get_build_labels.
  destruct (existsb (String.eqb var) (map VariableName t)) eqn:Hin.
  - rewrite get_build_mapping.
    rewrite <- filter_rev, ListFacts.find_filter. reflexivity.
  - destruct (find _ (rev t)) as [row|] eqn:Hfind; [|reflexivity].
    apply find_some in Hfind as [Hrow Hmatch].
    apply andb_true_iff in Hmatch as [Hvar _].
    apply String.eqb_eq in Hvar.
    assert (Hcontra : existsb (String.eqb var) (map VariableName t) = true).
    { apply ListFacts.existsb_eqb_in. rewrite <- Hvar.
      apply in_map, in_rev, Hrow. }
    congruence.
Qed.

(** C8, as stated, fails: with two records for (SECTOR, 1) the entry is the
    label of the second one, not of the first. *)
Lemma build_labels_first_record_loses :
  let t := [ mkRow "SECTOR" (Num 1) (Some (Text "Public"));
             mkRow "SECTOR" (Num 1) (Some (Text "Private")) ] in
  option_map ValueLabel (hd_error (Spec.records_of "SECTOR" (Num 1) t))
  = Some (Some (Text "Public"))
  /\ label_of (build_labels t) "SECTOR" (Num 1) = Some (Some (Text "Private"))
  /\ label_of (build_labels t) "SECTOR" (Num 1)
     <> option_map ValueLabel (hd_error (Spec.records_of "SECTOR" (Num 1) t)).
Proof.
  split; [reflexivity | split; [reflexivity | discriminate]].
Qed.

End Labels.

(** ** Frames *)

Module Frames.

Lemma getitem_found (df : DataFrame) (key : string) (s : Series) :
  getitem df key = Ok s -> In s df /\ name s = key.
Proof.
  unfold getitem. intros Hget.
  destruct (find (fun s => String.eqb (name s) key) df) as [c|] eqn:Hfind;
    [|discriminate Hget].
  injection Hget as ->.
  apply find_some in Hfind as [Hin Heq].
  split; [exact Hin | apply String.eqb_eq, Heq].
Qed.

Lemma getitem_missing (df : DataFrame) (key : string) :
  ~ In key (columns df) -> getitem df key = Err (KeyError key).
Proof.
  unfold getitem. intros Hmiss.
  destruct (find (fun s => String.eqb (name s) key) df) as [c|] eqn:Hfind;
    [|reflexivity].
  apply find_some in Hfind as [Hin Heq]. apply String.eqb_eq in Heq.
  contradiction Hmiss. rewrite <- Heq. apply in_map, Hin.
Qed.

Lemma getitem_present (df : DataFrame) (key : string) :
  In key (columns df) -> exists s, getitem df key = Ok s.
Proof.
  unfold getitem. intros Hin.
  destruct (find (fun s => String.eqb (name s) key) df) as [c|] eqn:Hfind.
  - exists c. reflexivity.
  - apply in_map_iff in Hin as [c [Hname Hc]].
    pose proof (find_none _ _ Hfind c Hc) as Hneq. simpl in Hneq.
    rewrite Hname, String.eqb_refl in Hneq. discriminate Hneq.
Qed.

(** With unique labels [df[label]] is the column that carries the label. *)
Lemma getitem_member (df : DataFrame) (s : Series) :
  NoDup (columns df) -> In s df -> getitem df (name s) = Ok s.
Proof.
  unfold getitem. induction df as [|c df IH]; intros Hnd Hin.
  - contradiction.
  - simpl in Hnd. inversion Hnd as [|? ? Hfresh Hnd']. subst.
    simpl. destruct Hin as [->|Hin].
    + rewrite String.eqb_refl. reflexivity.
    + destruct (String.eqb_spec (name c) (name s)) as [Heq|_].
      * contradiction Hfresh. rewrite Heq. apply in_map, Hin.
      * exact (IH Hnd' Hin).
Qed.

Lemma getitems_members (df sub : DataFrame) :
  NoDup (columns df) -> incl sub df -> getitems df (map name sub) = Ok sub.
Proof.
  intros Hnd. unfold getitems.
  induction sub as [|s sub IH]; intros Hsub; simpl.
  - reflexivity.
  - rewrite (getitem_member df s Hnd) by (apply Hsub; left; reflexivity).
    simpl. rewrite IH by (intros x Hx; apply Hsub; right; exact Hx).
    reflexivity.
Qed.

(** The filter keeps, in order, the columns whose label does not contain
    "Unnamed". *)
Lemma drop_unnamed_filter (data : DataFrame) :
  NoDup (columns data) ->
  drop_unnamed data
  = Ok (filter (fun s => negb (Str.contains "Unnamed" (name s))) data).
Proof.
  intros Hnd. unfold drop_unnamed, data_cols, columns.
  rewrite filter_map_swap.
  apply getitems_members; [exact Hnd | apply incl_filter].
Qed.

Lemma columns_setitem (df : DataFrame) (key : string) (s : Series) :
  In key (columns df) -> columns (setitem df key s) = columns df.
Proof.
  induction df as [|c df IH]; simpl; intros Hin.
  - contradiction.
  - destruct (String.eqb_spec (name c) key) as [Heq|Hne]; simpl.
    + rewrite Heq. reflexivity.
    + f_equal. apply IH. destruct Hin as [Heq|Hin]; [contradiction | exact Hin].
Qed.

Lemma map_untouched (f : Series -> Series) (df : DataFrame) (key : string) :
  ~ In key (columns df) ->
  map (fun c => if String.eqb (name c) key then f c else c) df = df.
Proof.
  induction df as [|c df IH]; simpl; intros Hmiss.
  - reflexivity.
  - destruct (String.eqb_spec (name c) key) as [Heq|_]; [tauto|].
    f_equal. apply IH. tauto.
Qed.

(** With unique labels the assignment [data[key] = data[key].map(mapping)]
    rewrites the column labelled [key] and nothing else. *)
Lemma setitem_relabel (df : DataFrame) (key : string) (s : Series)
                      (mapping : Dict.t scalar cell) :
  NoDup (columns df) -> getitem df key = Ok s ->
  setitem df key (Series_map s mapping)
  = map (fun c => if String.eqb (name c) key then Series_map c mapping else c) df.
Proof.
  unfold getitem. induction df as [|c df IH]; intros Hnd Hget.
  - discriminate Hget.
  - simpl in Hnd. inversion Hnd as [|? ? Hfresh Hnd']. subst.
    simpl in Hget |- *.
    destruct (String.eqb_spec (name c) key) as [Heq|Hne].
    + injection Hget as <-. subst key.
      rewrite (map_untouched _ df (name c) Hfresh). reflexivity.
    + f_equal. exact (IH Hnd' Hget).
Qed.

Lemma columns_relabel_if (p : Series -> bool) (f : Series -> Series)
                         (df : DataFrame) :
  (forall c, name (f c) = name c) ->
  columns (map (fun c => if p c then f c else c) df) = columns df.
Proof.
  intros Hname. unfold columns. rewrite map_map. apply map_ext.
  intros c. destruct (p c); [apply Hname | reflexivity].
Qed.

Lemma substitute_keys_closed (labels : LabelMap) (ks : list string) :
  forall data : DataFrame,
    NoDup ks -> incl ks (Dict.keys labels) -> incl ks (columns data) ->
    NoDup (columns data) ->
    foldM (substitute_key labels) ks data
    = Ok (map (fun c => if existsb (String.eqb (name c)) ks
                        then Spec.relabel labels c else c) data).
Proof.
  induction ks as [|k ks IH]; intros data Hks Hlab Hcol Hnd.
  - simpl. rewrite map_id. reflexivity.
  - inversion Hks as [|? ? Hfresh Hks']. subst.
    destruct (getitem_present data k) as [s Hs];
      [apply Hcol; left; reflexivity|].
    destruct (DictFacts.in_keys_get labels k) as [m Hm];
      [apply Hlab; left; reflexivity|].
    cbn [foldM]. unfold substitute_key at 1, dict_getitem.
    rewrite Hs, Hm. cbn [bind].
    rewrite (setitem_relabel data k s m Hnd Hs).
    set (h := fun c => if String.eqb (name c) k then Series_map c m else c).
    assert (Hsame : columns (map h data) = columns data)
      by (apply columns_relabel_if; reflexivity).
    rewrite IH.
    + f_equal. rewrite map_map. apply map_ext. intros c. unfold h.
      cbn [existsb].
      destruct (String.eqb_spec (name c) k) as [Heq|Hne];
        cbn [orb name Series_map].
      * assert (Hout : existsb (String.eqb (name c)) ks = false).
        { destruct (existsb (String.eqb (name c)) ks) eqn:Hex; [|reflexivity].
          apply ListFacts.existsb_eqb_in in Hex. rewrite Heq in Hex.
          contradiction. }
        rewrite Hout. unfold Spec.relabel. rewrite Heq, Hm. reflexivity.
      * reflexivity.
    + exact Hks'.
    + intros x Hx. apply Hlab. right. exact Hx.
    + rewrite Hsame. intros x Hx. apply Hcol. right. exact Hx.
    + rewrite Hsame. exact Hnd.
Qed.

(** The whole loop, when every key labels a column. *)
Lemma substitute_closed (labels : LabelMap) (data : DataFrame) :
  NoDup (columns data) -> NoDup (Dict.keys labels) ->
  incl (Dict.keys labels) (columns data) ->
  substitute labels data = Ok (map (Spec.relabel labels) data).
Proof.
  intros Hnd Hkeys Hincl. unfold substitute.
  rewrite substitute_keys_closed;
    [|exact Hkeys | apply incl_refl | exact Hincl | exact Hnd].
  f_equal. apply map_ext. intros c.
  destruct (existsb (String.eqb (name c)) (Dict.keys labels)) eqn:Hex;
    [reflexivity|].
  unfold Spec.relabel.
  destruct (Dict.get labels (name c)) as [m|] eqn:Hget; [|reflexivity].
  apply DictFacts.get_some_in_keys in Hget.
  apply ListFacts.existsb_eqb_in in Hget. congruence.
Qed.

(** The loop stops with [KeyError] at the first key that labels no column. *)
Lemma substitute_keys_fault (labels : LabelMap) (ks : list string) :
  forall data : DataFrame,
    incl ks (Dict.keys labels) ->
    (exists k, In k ks /\ ~ In k (columns data)) ->
    exists key, foldM (substitute_key labels) ks data = Err (KeyError key)
                /\ In key ks /\ ~ In key (columns data).
Proof.
  induction ks as [|k ks IH]; intros data Hlab [k0 [Hin Hmiss]].
  - contradiction.
  - cbn [foldM]. unfold substitute_key at 1.
    destruct (in_dec string_dec k (columns data)) as [Hk|Hk].
    + destruct (getitem_present data k Hk) as [s Hs].
      destruct (DictFacts.in_keys_get labels k) as [m Hm];
        [apply Hlab; left; reflexivity|].
      unfold dict_getitem. rewrite Hs, Hm. cbn [bind].
      pose proof (columns_setitem data k (Series_map s m) Hk) as Hsame.
      destruct (IH (setitem data k (Series_map s m))) as [key [Hf [Hkey Hno]]].
      * intros x Hx. apply Hlab. right. exact Hx.
      * exists k0. rewrite Hsame. split; [|exact Hmiss].
        destruct Hin as [->|Hin]; [contradiction | exact Hin].
      * exists key. rewrite Hsame in Hno.
        split; [exact Hf | split; [right; exact Hkey | exact Hno]].
    + rewrite (getitem_missing data k Hk). cbn [bind].
      exists k. split; [reflexivity | split; [left; reflexivity | exact Hk]].
Qed.

(** The loop ends normally only when every key labels a column. *)
Lemma substitute_keys_ok (labels : LabelMap) (ks : list string) :
  forall data data' : DataFrame,
    foldM (substitute_key labels) ks data = Ok data' ->
    incl ks (columns data).
Proof.
  induction ks as [|k ks IH]; intros data data' Hok.
  - intros x [].
  - cbn [foldM] in Hok. unfold substitute_key at 1 in Hok.
    destruct (getitem data k) as [s|e] eqn:Hs; [|discriminate Hok].
    apply getitem_found in Hs as [Hs Hname].
    assert (Hk : In k (columns data)) by (rewrite <- Hname; apply in_map, Hs).
    cbn [bind] in Hok.
    destruct (dict_getitem labels k) as [m|e]; [|discriminate Hok].
    cbn [bind] in Hok. apply IH in Hok.
    rewrite (columns_setitem data k _ Hk) in Hok.
    intros x [<-|Hx]; [exact Hk | apply Hok, Hx].
Qed.

Lemma Forall2_map_right {A B : Type} (R : A -> B -> Prop) (f : A -> B)
                        (l : list A) :
  (forall a, In a l -> R a (f a)) -> Forall2 R l (map f l).
Proof.
  induction l as [|a l IH]; intros HR; simpl; constructor.
  - apply HR. left. reflexivity.
  - apply IH. intros x Hx. apply HR. right. exact Hx.
Qed.



End Frames.

(** ** The steps of the run *)

Module TableClaims.
Import Frames.

Ltac distinct_labels :=
  repeat (constructor; [simpl; intuition discriminate|]); constructor.

Lemma first_filter {A : Type} (p : A -> bool) (l : list A) :
  first (filter p l)
  = match find p l with
    | Some a => Ok a
    | None => Err IndexError
    end.
Proof.
  induction l as [|a l IH]; simpl.
  - reflexivity.
  - destruct (p a); [reflexivity | exact IH].
Qed.

(** C1. When every key of the label map labels a column, the loop ends
    normally, and in every column labelled by a key each cell [v] has become
    [mapping[v]] when [v] is a key of that variable's mapping and the missing
    marker when it is not: no unmapped code passes through. *)
Theorem substitution_maps_cells (labels : LabelMap) (data : DataFrame) :
  NoDup (columns data) -> NoDup (Dict.keys labels) ->
  incl (Dict.keys labels) (columns data) ->
  exists data',
    substitute labels data = Ok data'
    /\ forall key mapping s,
         Dict.get labels key = Some mapping -> getitem data key = Ok s ->
         exists s',
           getitem data' key = Ok s'
           /\ List.length (values s') = List.length (values s)
           /\ forall i v,
                nth_error (values s) i = Some v ->
                (forall code label,
                    v = Some code -> Dict.get mapping code = Some label ->
                    nth_error (values s') i = Some label)
                /\ ((forall code, v = Some code -> Dict.get mapping code = None) ->
                    nth_error (values s') i = Some None).
Proof.
  intros Hnd Hkeys Hincl.
  exists (map (Spec.relabel labels) data).
  split; [apply substitute_closed; assumption|].
  intros key mapping s Hmap Hs.
  apply getitem_found in Hs as [Hs Hname]. subst key.
  exists (Series_map s mapping).
  assert (Hcols : columns (map (Spec.relabel labels) data) = columns data).
  { unfold columns. rewrite map_map. apply map_ext. intros c.
    unfold Spec.relabel. destruct (Dict.get labels (name c)); reflexivity. }
  split; [|split].
  - change (name s) with (name (Series_map s mapping)).
    apply getitem_member; [rewrite Hcols; exact Hnd|].
    apply in_map_iff. exists s. split; [|exact Hs].
    unfold Spec.relabel. rewrite Hmap. reflexivity.
  - simpl. apply length_map.
  - intros i v Hv. simpl. rewrite nth_error_map, Hv. simpl. split.
    + intros code label -> Hcode. simpl. rewrite Hcode. reflexivity.
    + intros Hnone. destruct v as [code|]; simpl; [|reflexivity].
      rewrite (Hnone code eq_refl). reflexivity.
Qed.

Lemma substitution_maps_cells_witness :
  exists data',
    substitute (build_labels Sample.value_labels) Sample.data = Ok data'
    /\ getitem data' "SECTOR"
       = Ok (mkSeries "SECTOR" [Some (Text "Public"); None]).
Proof.
  destruct (substitution_maps_cells (build_labels Sample.value_labels)
                                    Sample.data)
    as [data' [Hrun _]].
  - distinct_labels.
  - distinct_labels.
  - intros k Hk. simpl in Hk. simpl. tauto.
  - exists data'. split; [exact Hrun|].
    vm_compute in Hrun. injection Hrun as <-. reflexivity.
Defined.

(** C2. When every key of the label map labels a column, the table after the
    loop has the same column labels in the same order; column by column the
    cells are a row-wise image of the old ones (same number of rows, same
    order), and a column whose label is no key of the label map is the very
    column it was. *)
Theorem substitution_frame (labels : LabelMap) (data : DataFrame) :
  NoDup (columns data) -> NoDup (Dict.keys labels) ->
  incl (Dict.keys labels) (columns data) ->
  exists data',
    substitute labels data = Ok data'
    /\ columns data' = columns data
    /\ Forall2
         (fun c c' =>
            name c' = name c
            /\ List.length (values c') = List.length (values c)
            /\ (exists f, values c' = map f (values c))
            /\ (~ In (name c) (Dict.keys labels) -> c' = c))
         data data'.
Proof.
  intros Hnd Hkeys Hincl.
  exists (map (Spec.relabel labels) data).
  split; [apply substitute_closed; assumption|].
  assert (Hname : forall c, name (Spec.relabel labels c) = name c).
  { intros c. unfold Spec.relabel.
    destruct (Dict.get labels (name c)); reflexivity. }
  split.
  - unfold columns. rewrite map_map. apply map_ext, Hname.
  - apply Forall2_map_right. intros c _.
    split; [apply Hname|].
    unfold Spec.relabel.
    destruct (Dict.get labels (name c)) as [m|] eqn:Hget.
    + split; [apply length_map|].
      split; [exists (map_cell m); reflexivity|].
      intros Hout. contradiction Hout.
      exact (DictFacts.get_some_in_keys labels (name c) m Hget).
    + split; [reflexivity|].
      split; [exists (fun v => v); symmetry; apply map_id|].
      reflexivity.
Qed.

Lemma substitution_frame_witness :
  exists data',
    substitute (build_labels Sample.value_labels) Sample.data = Ok data'
    /\ columns data' = ["UnitID"; "SECTOR"]
    /\ getitem data' "UnitID" = getitem Sample.data "UnitID".
Proof.
  destruct (substitution_frame (build_labels Sample.value_labels) Sample.data)
    as [data' [Hrun [Hcols _]]].
  - distinct_labels.
  - distinct_labels.
  - intros k Hk. simpl in Hk. simpl. tauto.
  - exists data'. split; [exact Hrun | split; [exact Hcols|]].
    vm_compute in Hrun. injection Hrun as <-. reflexivity.
Defined.




(** C9. Each member file is the first name of the archive that contains the
    substring ("Data", "ValueLabels"); when no name contains one of them the
    selection raises [IndexError] and the run ends with that fault in the
    world it started in: nothing printed, no file written. *)
Theorem archive_member_selection (today : string) (zf : ZipFile)
                                 (output_dir : string) (w : world) :
  (forall needle,
      select_member needle zf
      = match find (Str.contains needle) (namelist zf) with
        | Some member => Ok member
        | None => Err IndexError
        end)
  /\ (forall needle,
         In needle ["Data"; "ValueLabels"] ->
         find (Str.contains needle) (namelist zf) = None ->
         clean_data today zf output_dir w = (Some IndexError, w)).
Proof.
  assert (Hsel : forall needle,
             select_member needle zf
             = match find (Str.contains needle) (namelist zf) with
               | Some member => Ok member
               | None => Err IndexError
               end)
    by (intros needle; apply first_filter).
  split; [exact Hsel|].
  intros needle Hneedle Hnone.
  unfold clean_data, cleaned.
  destruct Hneedle as [<-|[<-|[]]].
  - rewrite (Hsel "Data"), Hnone. reflexivity.
  - rewrite (Hsel "Data"), (Hsel "ValueLabels"), Hnone.
    destruct (find (Str.contains "Data") (namelist zf)); reflexivity.
Qed.

Lemma archive_member_selection_witness :
  select_member "ValueLabels" Sample.lowercase_archive
  = Ok "ValueLabels_3-5-2020.csv"
  /\ clean_data "2020-03-05" Sample.lowercase_archive "out" Sample.empty_world
     = (Some IndexError, Sample.empty_world).
Proof.
  destruct (archive_member_selection "2020-03-05" Sample.lowercase_archive
                                     "out" Sample.empty_world)
    as [Hsel Habort].
  split.
  - rewrite Hsel. reflexivity.
  - apply (Habort "Data"); [left; reflexivity | reflexivity].
Defined.

(** C10. When the label table names a variable that labels no column of the
    filtered data table, the substitution loop raises [KeyError] for such a
    variable and the run ends with that fault in the world it started in;
    the loop ends normally only if every key of the label map labels a
    column. *)
Theorem extra_label_variable_faults
    (today : string) (zf : ZipFile) (output_dir : string) (w : world)
    (DATA_FILE VALUELABELS_FILE : string) (data filtered : DataFrame)
    (value_labels : LabelTable) :
  select_member "Data" zf = Ok DATA_FILE ->
  select_member "ValueLabels" zf = Ok VALUELABELS_FILE ->
  read_data zf DATA_FILE = Ok data ->
  read_labels zf VALUELABELS_FILE = Ok value_labels ->
  drop_unnamed data = Ok filtered ->
  (exists row, In row value_labels
               /\ ~ In (VariableName row) (columns filtered)) ->
  (exists key,
      substitute (build_labels value_labels) filtered = Err (KeyError key)
      /\ clean_data today zf output_dir w = (Some (KeyError key), w)
      /\ In key (map VariableName value_labels)
      /\ ~ In key (columns filtered))
  /\ (forall labels d d',
         substitute labels d = Ok d' -> incl (Dict.keys labels) (columns d)).
Proof.
  intros Hdata Hlabels Hread Hrows Hdrop [row [Hrow Hextra]].
  split.
  - destruct (substitute_keys_fault (build_labels value_labels)
                (Dict.keys (build_labels value_labels)) filtered)
      as [key [Hfault [Hkey Hmiss]]].
    + apply incl_refl.
    + exists (VariableName row). split; [|exact Hextra].
      apply Labels.in_keys_build_labels, in_map, Hrow.
    + exists key. fold (substitute (build_labels value_labels) filtered) in Hfault.
      split; [exact Hfault|].
      split; [|split; [apply Labels.in_keys_build_labels, Hkey | exact Hmiss]].
      unfold clean_data, cleaned.
      rewrite Hdata, Hlabels. cbn [bind].
      rewrite Hread. cbn [bind]. rewrite Hrows. cbn [bind].
      rewrite Hdrop. cbn [bind]. rewrite Hfault. reflexivity.
  - intros labels d d' Hok. exact (substitute_keys_ok labels _ d d' Hok).
Qed.

Lemma extra_label_variable_faults_witness :
  clean_data "2020-03-05" (Sample.archive Sample.control_labels) "out"
             Sample.empty_world
  = (Some (KeyError "CONTROL"), Sample.empty_world).
Proof.
  destruct (extra_label_variable_faults
              "2020-03-05" (Sample.archive Sample.control_labels) "out"
              Sample.empty_world "Data_3-5-2020.csv" "ValueLabels_3-5-2020.csv"
              Sample.exported Sample.data Sample.control_labels)
    as [[key [Hsub [Hrun _]]] _];
    [reflexivity | reflexivity | reflexivity | reflexivity | reflexivity | |].
  - exists (mkRow "CONTROL" (Num 1) (Some (Text "Public"))).
    split; [simpl; tauto | simpl; intuition discriminate].
  - vm_compute in Hsub. injection Hsub as <-. exact Hrun.
Defined.

(** The run of section 8: SECTOR 1 is labelled, SECTOR 9 becomes missing,
    the placeholder column is gone and the headers are normalized. *)
Example clean_data_sample :
  clean_data "2020-03-05" (Sample.archive Sample.value_labels) "out"
             Sample.empty_world
  = (None,
     mkWorld ["Saving file"]
       [mkFile "out" "processed_data-2020-03-05.csv"
          [ mkSeries "unitid" [Some (Num 100654); Some (Num 100663)];
            mkSeries "sector" [Some (Text "Public"); None] ]]).
Proof. vm_compute. reflexivity. Qed.

End TableClaims.

(** * Further properties of the code *)

(** ** More on strings *)

Module StrMore.

Lemma length_append (s t : string) :
  String.length (s ++ t) = String.length s + String.length t.
Proof.
  induction s as [|c s IH]; simpl.
  - reflexivity.
  - rewrite IH. reflexivity.
Qed.

Lemma append_assoc (s t u : string) :
  ((s ++ t) ++ u)%string = (s ++ t ++ u)%string.
Proof.
  induction s as [|c s IH]; simpl.
  - reflexivity.
  - rewrite IH. reflexivity.
Qed.

Lemma prefix_length (old s : string) :
  String.prefix old s = true -> String.length old <= String.length s.
Proof.
  revert s. induction old as [|a old IH]; intros s Hpre.
  - simpl. lia.
  - destruct s as [|b s]; [discriminate Hpre|].
    simpl in Hpre. destruct (ascii_dec a b); [|discriminate Hpre].
    simpl. apply le_n_S, IH, Hpre.
Qed.

Lemma prefix_char (a b : ascii) (s : string) :
  String.prefix (String a "") (String b s) = Ascii.eqb a b.
Proof.
  simpl. destruct (ascii_dec a b) as [->|Hne].
  - rewrite Ascii.eqb_refl. destruct s; reflexivity.
  - symmetry. apply Ascii.eqb_neq, Hne.
Qed.

(** A replacement never writes past the length it reads: with [new] no
    longer than [old] the result is no longer than what was left to scan. *)
Lemma length_replace_from (old new : string) :
  String.length new <= String.length old ->
  forall (s : string) (k : nat),
    String.length (Str.replace_from old new k s) <= String.length s - k.
Proof.
  intros Hnew. induction s as [|c s IH]; intros k.
  - simpl. lia.
  - destruct k as [|k].
    + rewrite StrFacts.replace_from_scan.
      destruct (String.prefix old (String c s)) eqn:Hpre.
      * apply prefix_length in Hpre. simpl in Hpre.
        rewrite length_append.
        pose proof (IH (String.length old - 1)) as Hrest.
        simpl String.length. lia.
      * pose proof (IH 0) as Hrest. simpl String.length. lia.
    + rewrite StrFacts.replace_from_skip.
      pose proof (IH k) as Hrest. simpl String.length. lia.
Qed.

Lemma length_replace (old new s : string) :
  old <> EmptyString -> String.length new <= String.length old ->
  String.length (Str.replace old new s) <= String.length s.
Proof.
  intros Hold Hnew. destruct old as [|a old]; [contradiction|].
  unfold Str.replace.
  pose proof (length_replace_from (String a old) new Hnew s 0). lia.
Qed.

Lemma length_lower (s : string) :
  String.length (Str.lower s) = String.length s.
Proof.
  induction s as [|c s IH]; simpl; [reflexivity | rewrite IH; reflexivity].
Qed.

Lemma length_sub_from (re : Re.regex) (s : string) (k : nat) :
  String.length (Re.sub_from re "" k s) <= String.length s - k.
Proof.
  revert k. induction s as [|c s IH]; intros k.
  - simpl. destruct k; [destruct (Re.match_here re "")|]; simpl; lia.
  - destruct k as [|k].
    + rewrite ReFacts.sub_from_scan.
      destruct (Re.match_here re (String c s)) as [[|n]|].
      * pose proof (IH 0). simpl. lia.
      * pose proof (IH n). simpl. lia.
      * pose proof (IH 0). simpl. lia.
    + rewrite ReFacts.sub_from_skip. pose proof (IH k). simpl. lia.
Qed.

Lemma all_and (p q : ascii -> bool) (s : string) :
  Str.all (fun c => p c && q c) s = Str.all p s && Str.all q s.
Proof.
  induction s as [|c s IH]; simpl.
  - reflexivity.
  - rewrite IH.
    destruct (p c), (q c), (Str.all p s), (Str.all q s); reflexivity.
Qed.

(** Replacing a character by a string without it leaves none of it. *)
Lemma all_replace_char (a : ascii) (new s : string) :
  Str.all (is_not a) new = true ->
  Str.all (is_not a) (Str.replace (String a "") new s) = true.
Proof.
  intros Hnew. unfold Str.replace.
  induction s as [|c s IH].
  - reflexivity.
  - rewrite StrFacts.replace_from_scan, prefix_char.
    destruct (Ascii.eqb a c) eqn:Hac.
    + rewrite StrFacts.all_app, Hnew. exact IH.
    + cbn [Str.all]. change (is_not a c) with (negb (Ascii.eqb c a)).
      rewrite (Ascii.eqb_sym c a), Hac. exact IH.
Qed.

Lemma all_lower (p : ascii -> bool) (s : string) :
  (forall c, p c = true -> p (Str.lower_char c) = true) ->
  Str.all p s = true -> Str.all p (Str.lower s) = true.
Proof.
  intros Hp. induction s as [|c s IH]; simpl; intros Hs.
  - reflexivity.
  - apply andb_true_iff in Hs as [Hc Hs].
    rewrite (Hp c Hc). exact (IH Hs).
Qed.

(** [a not in s], for a single character [a]. *)
Lemma contains_char (a : ascii) (s : string) :
  Str.contains (String a "") s = negb (Str.all (is_not a) s).
Proof.
  induction s as [|c s IH].
  - reflexivity.
  - rewrite StrFacts.contains_cons, prefix_char, IH. cbn [Str.all].
    change (is_not a c) with (negb (Ascii.eqb c a)).
    rewrite (Ascii.eqb_sym c a).
    destruct (Ascii.eqb a c), (Str.all (is_not a) s); reflexivity.
Qed.

End StrMore.

(** ** More on the normalizer *)

Module NormalizerMore.

Lemma length_sub (re : Re.regex) (s : string) :
  String.length (Re.sub re "" s) <= String.length s.
Proof.
  unfold Re.sub. pose proof (StrMore.length_sub_from re s 0). lia.
Qed.

Ltac shrink_step :=
  first
    [ rewrite StrMore.length_lower
    | eapply Nat.le_trans;
      [apply StrMore.length_replace; [discriminate | simpl; lia]|] ].

(** On ASCII headers no step writes more than it reads. *)
Lemma length_clean_column (col : string) :
  String.length (clean_column col) <= String.length col.
Proof.
  unfold clean_column, separators_rewritten.
  eapply Nat.le_trans; [apply length_sub|].
  repeat shrink_step.
  apply le_n.
Qed.

Lemma all_header_char (s : string) :
  Str.all header_char s
  = Str.all Str.not_upper s && Str.all (is_not " ") s && Str.all (is_not "/") s.
Proof.
  unfold header_char.
  rewrite (StrMore.all_and (fun c => Str.not_upper c && is_not " " c)
                           (is_not "/") s).
  rewrite (StrMore.all_and Str.not_upper (is_not " ") s).
  reflexivity.
Qed.

Lemma lower_char_keeps_space (c : ascii) :
  is_not " " c = true -> is_not " " (Str.lower_char c) = true.
Proof.
  destruct c as [[] [] [] [] [] [] [] []]; intros Hc;
    first [reflexivity | discriminate Hc].
Qed.

Lemma lower_char_keeps_slash (c : ascii) :
  is_not "/" c = true -> is_not "/" (Str.lower_char c) = true.
Proof.
  destruct c as [[] [] [] [] [] [] [] []]; intros Hc;
    first [reflexivity | discriminate Hc].
Qed.

(** X2. A normalized name holds no capital letter, no space and no slash:
    the spaces and slashes are replaced before [lower], and nothing written
    afterwards brings one back. *)
Theorem clean_column_alphabet (col : string) :
  Str.all header_char (clean_column col) = true.
Proof.
  unfold clean_column, separators_rewritten.
  apply ReFacts.all_sub_from; [reflexivity|].
  repeat (apply StrFacts.all_replace; [reflexivity|]).
  rewrite all_header_char.
  set (s3 := Str.replace " " "_" _).
  assert (H3 : Str.all (is_not " ") s3 = true)
    by (apply StrMore.all_replace_char; reflexivity).
  set (s4 := Str.replace "/" "-" s3).
  assert (H4 : Str.all (is_not "/") s4 = true)
    by (apply StrMore.all_replace_char; reflexivity).
  assert (H4' : Str.all (is_not " ") s4 = true)
    by (apply StrFacts.all_replace; [reflexivity | exact H3]).
  rewrite StrFacts.lower_not_upper.
  rewrite !StrMore.all_lower;
    first [ reflexivity
          | exact lower_char_keeps_space
          | exact lower_char_keeps_slash
          | apply StrFacts.all_replace; [reflexivity | assumption] ].
Qed.

End NormalizerMore.

(** ** Removal of parenthesized groups *)

Module GroupRemoval.

Lemma group_body_length (s : string) (n : nat) :
  Spec.group_body s = Some n -> n <= String.length s.
Proof.
  revert n. induction s as [|c s IH]; simpl; intros n Hn.
  - discriminate Hn.
  - destruct (Ascii.eqb c ")"); [injection Hn as <-; lia|].
    destruct (Ascii.eqb c "("); [discriminate Hn|].
    destruct (Spec.group_body s) as [m|]; [|discriminate Hn].
    injection Hn as <-. specialize (IH m eq_refl). lia.
Qed.

Lemma group_at_length (s : string) (n : nat) :
  Spec.group_at s = Some n -> n <= String.length s.
Proof.
  destruct s as [|c [|d s]]; simpl.
  - discriminate.
  - destruct c as [[] [] [] [] [] [] [] []]; discriminate.
  - destruct c as [[] [] [] [] [] [] [] []]; try discriminate.
    destruct d as [[] [] [] [] [] [] [] []]; try discriminate.
    destruct (Spec.group_body s) as [m|] eqn:Hm; [|discriminate].
    intros [= <-]. apply group_body_length in Hm. lia.
Qed.

(** A group that opens after [a] does not change where a body inside [a]
    ends: its parenthesis stops the scan as the end of the string would. *)
Lemma group_body_before_group (a r : string) :
  Spec.group_body (a ++ String "_" (String "(" r)) = Spec.group_body a.
Proof.
  induction a as [|c a IH]; simpl.
  - reflexivity.
  - rewrite IH. reflexivity.
Qed.

Lemma group_at_before_group (c : ascii) (a r : string) :
  Spec.group_at (String c a ++ String "_" (String "(" r))
  = Spec.group_at (String c a).
Proof.
  destruct a as [|d a].
  - destruct c as [[] [] [] [] [] [] [] []]; reflexivity.
  - change (String c (String d a) ++ String "_" (String "(" r))%string
      with (String c (String d (a ++ String "_" (String "(" r)))).
    unfold Spec.group_at.
    destruct c as [[] [] [] [] [] [] [] []]; try reflexivity.
    destruct d as [[] [] [] [] [] [] [] []]; try reflexivity.
    rewrite group_body_before_group. reflexivity.
Qed.

(** What stands in front of a group is rewritten as if it stood alone. *)
Lemma remove_groups_before_group (a r : string) (k : nat) :
  k <= String.length a ->
  Spec.remove_groups_from k (a ++ String "_" (String "(" r))
  = (Spec.remove_groups_from k a
     ++ Spec.remove_groups_from 0 (String "_" (String "(" r)))%string.
Proof.
  revert k. induction a as [|c a IH]; intros k Hk.
  - simpl in Hk. replace k with 0 by lia. reflexivity.
  - destruct k as [|k].
    + change (Spec.remove_groups_from 0
                (String c a ++ String "_" (String "(" r)))
        with (match Spec.group_at (String c a ++ String "_" (String "(" r)) with
              | Some n =>
                  Spec.remove_groups_from (n - 1)
                    (a ++ String "_" (String "(" r))
              | None =>
                  String c (Spec.remove_groups_from 0
                              (a ++ String "_" (String "(" r)))
              end).
      change (Spec.remove_groups_from 0 (String c a))
        with (match Spec.group_at (String c a) with
              | Some n => Spec.remove_groups_from (n - 1) a
              | None => String c (Spec.remove_groups_from 0 a)
              end).
      rewrite group_at_before_group.
      destruct (Spec.group_at (String c a)) as [n|] eqn:Hg.
      * apply group_at_length in Hg. simpl in Hg. apply IH. lia.
      * rewrite IH by lia. reflexivity.
    + simpl in Hk. apply (IH k). lia.
Qed.

Lemma group_body_closed (body b : string) :
  Str.all not_paren body = true ->
  Spec.group_body (body ++ String ")" b) = Some (S (String.length body)).
Proof.
  induction body as [|c body IH]; simpl; intros Hbody.
  - reflexivity.
  - apply andb_true_iff in Hbody as [Hc Hbody].
    unfold not_paren, Re.in_class in Hc. simpl in Hc.
    rewrite orb_false_r in Hc. apply negb_true_iff, orb_false_iff in Hc.
    destruct Hc as [Hopen Hclose].
    rewrite Hclose, Hopen, (IH Hbody). reflexivity.
Qed.

Lemma remove_groups_skip (x : string) (c : ascii) (b : string) :
  Spec.remove_groups_from (S (String.length x)) (x ++ String c b)
  = Spec.remove_groups_from 0 b.
Proof.
  induction x as [|d x IH]; simpl.
  - reflexivity.
  - exact IH.
Qed.

(** X3. [re.sub] with the pattern of [clean_column] takes out a group
    [_(...)] whose body has no parenthesis wherever it stands, and rewrites
    what is left and right of it independently. *)
Theorem sub_removes_group (a body b : string) :
  Str.all not_paren body = true ->
  Re.sub Re.paren_group "" (a ++ "_(" ++ body ++ ")" ++ b)
  = (Re.sub Re.paren_group "" a ++ Re.sub Re.paren_group "" b)%string.
Proof.
  intros Hbody. unfold Re.sub. rewrite !ReFacts.sub_paren_group.
  change ("_(" ++ body ++ ")" ++ b)%string
    with (String "_" (String "(" (body ++ String ")" b))).
  rewrite remove_groups_before_group by lia.
  f_equal.
  change (Spec.remove_groups_from 0
            (String "_" (String "(" (body ++ String ")" b))))
    with (match Spec.group_at (String "_" (String "(" (body ++ String ")" b)))
          with
          | Some n =>
              Spec.remove_groups_from (n - 1) (String "(" (body ++ String ")" b))
          | None =>
              String "_" (Spec.remove_groups_from 0
                            (String "(" (body ++ String ")" b)))
          end).
  unfold Spec.group_at. rewrite (group_body_closed body b Hbody).
  cbn [option_map Nat.add Nat.sub].
  change (Spec.remove_groups_from (S (S (String.length body)))
            (String "(" (body ++ String ")" b)))
    with (Spec.remove_groups_from (S (String.length body))
            (body ++ String ")" b)).
  apply remove_groups_skip.
Qed.

Lemma sub_removes_group_witness :
  Re.sub Re.paren_group "" "gradrate_(4-year)_women_(2020)" = "gradrate_women".
Proof.
  exact (sub_removes_group "gradrate" "4-year" "_women_(2020)" eq_refl).
Defined.

End GroupRemoval.

(** ** Headers that normalize to the same name *)

Module Collisions.

Lemma all_of_contains (a : ascii) (s : string) :
  Str.contains (String a "") s = false -> Str.all (is_not a) s = true.
Proof.
  rewrite StrMore.contains_char. apply negb_false_iff.
Qed.

(** X4. [clean_column] does not tell spaces from underscores: a header
    without apostrophe and hyphen and the same header with its spaces
    written as underscores are different strings with the same normalized
    name, so renaming can make two column labels equal. *)
Theorem spaces_and_underscores_collide (x : string) :
  Str.contains "'" x = false ->
  Str.contains "-" x = false ->
  Str.contains " " x = true ->
  Str.replace " " "_" x <> x
  /\ clean_column (Str.replace " " "_" x) = clean_column x.
Proof.
  intros Hquote Hdash Hspace.
  apply all_of_contains in Hquote, Hdash.
  set (y := Str.replace " " "_" x).
  assert (Hy : Str.all (is_not " ") y = true)
    by (apply StrMore.all_replace_char; reflexivity).
  assert (Hyq : Str.all (is_not "'") y = true)
    by (apply StrFacts.all_replace; [reflexivity | exact Hquote]).
  assert (Hyd : Str.all (is_not "-") y = true)
    by (apply StrFacts.all_replace; [reflexivity | exact Hdash]).
  split.
  - intros Heq. rewrite Heq in Hy.
    rewrite StrMore.contains_char, Hy in Hspace. discriminate Hspace.
  - assert (Hsep : separators_rewritten y = separators_rewritten x).
    { unfold separators_rewritten.
      rewrite (StrFacts.replace_absent "'s" "" y)
        by (apply (Normalizer.absent_by_alphabet (is_not "'"));
            [reflexivity | exact Hyq]).
      rewrite (StrFacts.replace_absent " - " "_" y)
        by (apply (Normalizer.absent_by_alphabet (is_not "-"));
            [reflexivity | exact Hyd]).
      rewrite (StrFacts.replace_absent " " "_" y)
        by (rewrite StrMore.contains_char, Hy; reflexivity).
      rewrite (StrFacts.replace_absent "'s" "" x)
        by (apply (Normalizer.absent_by_alphabet (is_not "'"));
            [reflexivity | exact Hquote]).
      rewrite (StrFacts.replace_absent " - " "_" x)
        by (apply (Normalizer.absent_by_alphabet (is_not "-"));
            [reflexivity | exact Hdash]).
      reflexivity. }
    unfold clean_column. rewrite Hsep. reflexivity.
Qed.

Lemma spaces_and_underscores_collide_witness :
  "Graduation_Rate" <> "Graduation Rate"
  /\ clean_column "Graduation_Rate" = clean_column "Graduation Rate".
Proof.
  exact (spaces_and_underscores_collide "Graduation Rate"
           eq_refl eq_refl eq_refl).
Defined.

End Collisions.

(** ** More on the label map *)

Module LabelsMore.

(** X5. The keys of the label map are the distinct variable names of the
    label table in order of first appearance, each once; a name is a key
    exactly when some record carries it. *)
Theorem label_map_keys (t : LabelTable) :
  Dict.keys (build_labels t) = unique (map VariableName t)
  /\ NoDup (Dict.keys (build_labels t))
  /\ (forall var,
         In var (Dict.keys (build_labels t))
         <-> exists row, In row t /\ VariableName row = var).
Proof.
  split; [apply Labels.keys_build_labels|].
  split; [apply Labels.NoDup_keys_build_labels|].
  intros var. rewrite Labels.in_keys_build_labels, in_map_iff.
  split; intros [row [H1 H2]]; exists row; split; assumption.
Qed.

Lemma label_of_last (t : LabelTable) (var : string) (code : scalar) :
  label_of (build_labels t) var code
  = option_map ValueLabel
      (find (fun row => has_variable var row && has_code code row) (rev t)).
Proof.
  unfold label_of. rewrite Labels.get_build_labels.
  destruct (existsb (String.eqb var) (map VariableName t)) eqn:Hin.
  - rewrite Labels.get_build_mapping.
    rewrite <- filter_rev, ListFacts.find_filter. reflexivity.
  - destruct (find _ (rev t)) as [row|] eqn:Hfind; [|reflexivity].
    apply find_some in Hfind as [Hrow Hmatch].
    apply andb_true_iff in Hmatch as [Hvar _].
    apply String.eqb_eq in Hvar.
    assert (Hcontra : existsb (String.eqb var) (map VariableName t) = true).
    { apply ListFacts.existsb_eqb_in. rewrite <- Hvar.
      apply in_map, in_rev, Hrow. }
    congruence.
Qed.

Lemma has_code_eq (code : scalar) (row : label_row) :
  has_code code row = true <-> Value row = code.
Proof. apply (key_eqb_eq (K := scalar)). Qed.

Lemma NoDup_map_injective {A B : Type} (f : A -> B) (l : list A) (a b : A) :
  NoDup (map f l) -> In a l -> In b l -> f a = f b -> a = b.
Proof.
  induction l as [|x l IH]; intros Hnd Ha Hb Hf.
  - contradiction.
  - simpl in Hnd. inversion Hnd as [|? ? Hfresh Hnd']. subst.
    destruct Ha as [->|Ha], Hb as [->|Hb].
    + reflexivity.
    + contradiction Hfresh. rewrite Hf. apply in_map, Hb.
    + contradiction Hfresh. rewrite <- Hf. apply in_map, Ha.
    + exact (IH Hnd' Ha Hb Hf).
Qed.

(** X6. When no pair of a variable name and a code occurs twice in the label
    table, every record is found again: the label map holds its label under
    its variable and its code. *)
Theorem label_map_round_trip (t : LabelTable) (row : label_row) :
  NoDup (map (fun r => (VariableName r, Value r)) t) ->
  In row t ->
  label_of (build_labels t) (VariableName row) (Value row)
  = Some (ValueLabel row).
Proof.
  intros Hnd Hrow. rewrite label_of_last.
  destruct (find _ (rev t)) as [r|] eqn:Hfind.
  - apply find_some in Hfind as [Hr Hmatch].
    apply in_rev in Hr.
    apply andb_true_iff in Hmatch as [Hvar Hcode].
    apply String.eqb_eq in Hvar. apply has_code_eq in Hcode.
    assert (Hsame : r = row).
    { apply (NoDup_map_injective _ t r row Hnd Hr Hrow).
      rewrite Hvar, Hcode. reflexivity. }
    rewrite Hsame. reflexivity.
  - pose proof (find_none _ _ Hfind row (proj1 (in_rev t row) Hrow)) as Hno.
    simpl in Hno. unfold has_variable in Hno.
    rewrite String.eqb_refl in Hno.
    rewrite (proj2 (has_code_eq (Value row) row) eq_refl) in Hno.
    discriminate Hno.
Qed.

Lemma label_map_round_trip_witness :
  label_of (build_labels Sample.value_labels) "SECTOR" (Num 2)
  = Some (Some (Text "Private not-for-profit")).
Proof.
  apply (label_map_round_trip
           Sample.value_labels
           (mkRow "SECTOR" (Num 2) (Some (Text "Private not-for-profit")))).
  - repeat (constructor; [simpl; intuition discriminate|]); constructor.
  - simpl. tauto.
Defined.

(** X7. After the substitution loop every cell of a column labelled by a
    variable of the label table is missing or is a [ValueLabel] that the
    table gives for that variable: no raw code is left in such a column. *)
Theorem labelled_cells_come_from_table (t : LabelTable) (data : DataFrame) :
  NoDup (columns data) ->
  incl (map VariableName t) (columns data) ->
  exists data',
    substitute (build_labels t) data = Ok data'
    /\ forall s', In s' data' -> In (name s') (map VariableName t) ->
       forall v', In v' (values s') ->
         v' = None
         \/ exists row, In row t /\ VariableName row = name s'
                        /\ ValueLabel row = v'.
Proof.
  intros Hnd Hincl.
  exists (map (Spec.relabel (build_labels t)) data).
  split.
  - apply Frames.substitute_closed;
      [exact Hnd | apply Labels.NoDup_keys_build_labels|].
    intros k Hk. apply Hincl, Labels.in_keys_build_labels, Hk.
  - intros s' Hs' Hvar v' Hv'.
    apply in_map_iff in Hs' as [s [<- Hs]].
    unfold Spec.relabel in *. rewrite Labels.get_build_labels in *.
    destruct (existsb (String.eqb (name s)) (map VariableName t)) eqn:Hex.
    + simpl in Hv'. apply in_map_iff in Hv' as [v [<- _]].
      destruct v as [code|]; simpl; [|left; reflexivity].
      rewrite Labels.get_build_mapping.
      destruct (find (has_code code) (rev (filter (has_variable (name s)) t)))
        as [row|] eqn:Hfind; simpl; [|left; reflexivity].
      right. exists row.
      apply find_some in Hfind as [Hrow _].
      apply in_rev, filter_In in Hrow as [Hrow Hname].
      apply String.eqb_eq in Hname.
      split; [exact Hrow | split; [exact Hname | reflexivity]].
    + apply ListFacts.existsb_eqb_in in Hvar. congruence.
Qed.

Lemma labelled_cells_come_from_table_witness :
  exists data',
    substitute (build_labels Sample.value_labels) Sample.data = Ok data'
    /\ forall s', In s' data' -> In (name s') ["SECTOR"; "SECTOR"] ->
       forall v', In v' (values s') ->
         v' = None
         \/ exists row, In row Sample.value_labels
                        /\ VariableName row = name s' /\ ValueLabel row = v'.
Proof.
  apply (labelled_cells_come_from_table Sample.value_labels Sample.data).
  - repeat (constructor; [simpl; intuition discriminate|]); constructor.
  - intros k Hk. simpl in Hk. simpl. tauto.
Defined.

End LabelsMore.

(** ** The run as a whole *)

Module RunMore.

Lemma columns_filter (p : string -> bool) (data : DataFrame) :
  columns (filter (fun s => p (name s)) data) = filter p (columns data).
Proof. unfold columns. symmetry. apply filter_map_swap. Qed.

(** X8. When both members are found and read, the data columns have
    unique labels and every variable of the label table labels a data column
    without "Unnamed" in its name, every step up to the write succeeds, and
    the table handed to [data.to_csv] holds the data columns whose label does
    not contain "Unnamed", in their order, relabelled by the label map, under
    their normalized names. *)
Theorem cleaned_table
    (zf : ZipFile) (DATA_FILE VALUELABELS_FILE : string) (data : DataFrame)
    (value_labels : LabelTable) :
  select_member "Data" zf = Ok DATA_FILE ->
  select_member "ValueLabels" zf = Ok VALUELABELS_FILE ->
  read_data zf DATA_FILE = Ok data ->
  read_labels zf VALUELABELS_FILE = Ok value_labels ->
  NoDup (columns data) ->
  (forall row, In row value_labels ->
               In (VariableName row) (columns data)
               /\ Str.contains "Unnamed" (VariableName row) = false) ->
  cleaned zf
  = Ok (rename_columns clean_column
          (map (Spec.relabel (build_labels value_labels))
               (filter (fun s => negb (Str.contains "Unnamed" (name s)))
                       data))).
Proof.
  intros Hdata Hlabels Hread Hrows Hnd Hvars.
  unfold cleaned.
  rewrite Hdata, Hlabels. cbn [bind].
  rewrite Hread. cbn [bind]. rewrite Hrows. cbn [bind].
  rewrite (Frames.drop_unnamed_filter data Hnd). cbn [bind].
  rewrite Frames.substitute_closed.
  - reflexivity.
  - rewrite (columns_filter (fun col => negb (Str.contains "Unnamed" col))).
    apply NoDup_filter, Hnd.
  - apply Labels.NoDup_keys_build_labels.
  - intros k Hk. apply Labels.in_keys_build_labels in Hk.
    apply in_map_iff in Hk as [row [<- Hrow]].
    destruct (Hvars row Hrow) as [Hcol Hname].
    rewrite (columns_filter (fun col => negb (Str.contains "Unnamed" col))).
    apply filter_In. split; [exact Hcol | rewrite Hname; reflexivity].
Qed.

Lemma cleaned_table_witness :
  cleaned (Sample.archive Sample.value_labels)
  = Ok [ mkSeries "unitid" [Some (Num 100654); Some (Num 100663)];
         mkSeries "sector" [Some (Text "Public"); None] ].
Proof.
  apply (cleaned_table
           (Sample.archive Sample.value_labels)
           "Data_3-5-2020.csv" "ValueLabels_3-5-2020.csv"
           Sample.exported Sample.value_labels);
    try reflexivity.
  - repeat (constructor; [simpl; intuition discriminate|]); constructor.
  - intros row [<-|[<-|[]]]; split; simpl; tauto.
Defined.

Lemma getitem_fault (df : DataFrame) (key : string) (e : fault) :
  getitem df key = Err e -> e = KeyError key /\ ~ In key (columns df).
Proof.
  intros Hget.
  destruct (in_dec string_dec key (columns df)) as [Hin|Hout].
  - destruct (Frames.getitem_present df key Hin) as [s Hs]. congruence.
  - rewrite (Frames.getitem_missing df key Hout) in Hget.
    injection Hget as <-. split; [reflexivity | exact Hout].
Qed.

Lemma substitute_keys_fault_inv (labels : LabelMap) (ks : list string) :
  forall (data : DataFrame) (e : fault),
    incl ks (Dict.keys labels) ->
    foldM (substitute_key labels) ks data = Err e ->
    exists key, e = KeyError key /\ In key ks /\ ~ In key (columns data).
Proof.
  induction ks as [|k ks IH]; intros data e Hlab Hrun.
  - discriminate Hrun.
  - cbn [foldM] in Hrun. unfold substitute_key at 1 in Hrun.
    destruct (getitem data k) as [s|e0] eqn:Hs; cbn [bind] in Hrun.
    + destruct (DictFacts.in_keys_get labels k) as [m Hm];
        [apply Hlab; left; reflexivity|].
      unfold dict_getitem in Hrun. rewrite Hm in Hrun. cbn [bind] in Hrun.
      apply Frames.getitem_found in Hs as [Hs Hname].
      assert (Hk : In k (columns data))
        by (rewrite <- Hname; apply in_map, Hs).
      destruct (IH _ e (fun x Hx => Hlab x (or_intror Hx)) Hrun)
        as [key [He [Hkey Hmiss]]].
      rewrite (Frames.columns_setitem data k _ Hk) in Hmiss.
      exists key. split; [exact He | split; [right; exact Hkey | exact Hmiss]].
    + injection Hrun as <-. apply getitem_fault in Hs as [He Hmiss].
      exists k. split; [exact He | split; [left; reflexivity | exact Hmiss]].
Qed.

(** X9. On a table with unique column labels the substitution loop has one
    way to fail: a fault it raises is the [KeyError] of [data[key]] for a
    key of the label map that labels no column; the look-up [labels[key]]
    never fails. *)
Theorem substitution_faults_are_key_errors
    (labels : LabelMap) (data : DataFrame) (e : fault) :
  NoDup (columns data) ->
  substitute labels data = Err e ->
  exists key,
    e = KeyError key /\ In key (Dict.keys labels) /\ ~ In key (columns data).
Proof.
  intros _ Hrun.
  exact (substitute_keys_fault_inv labels (Dict.keys labels) data e
           (incl_refl _) Hrun).
Qed.

Lemma substitution_faults_are_key_errors_witness :
  exists key,
    KeyError "CONTROL" = KeyError key
    /\ In key (Dict.keys (build_labels Sample.control_labels))
    /\ ~ In key (columns Sample.data).
Proof.
  apply (substitution_faults_are_key_errors
           (build_labels Sample.control_labels) Sample.data
           (KeyError "CONTROL")).
  - repeat (constructor; [simpl; intuition discriminate|]); constructor.
  - reflexivity.
Defined.

End RunMore.

(** ** The order of the steps *)

Module OutputMore.

(** X11. The placeholder filter runs before the labels are applied: when the
    label table names a variable whose name contains "Unnamed", the run ends
    with [KeyError] and the world unchanged, whether or not the data file
    has a column of that name. *)
Theorem unnamed_label_variable_faults
    (today : string) (zf : ZipFile) (output_dir : string) (w : world)
    (DATA_FILE VALUELABELS_FILE : string) (data : DataFrame)
    (value_labels : LabelTable) (row : label_row) :
  select_member "Data" zf = Ok DATA_FILE ->
  select_member "ValueLabels" zf = Ok VALUELABELS_FILE ->
  read_data zf DATA_FILE = Ok data ->
  read_labels zf VALUELABELS_FILE = Ok value_labels ->
  NoDup (columns data) ->
  In row value_labels ->
  Str.contains "Unnamed" (VariableName row) = true ->
  exists key,
    clean_data today zf output_dir w = (Some (KeyError key), w)
    /\ In key (map VariableName value_labels).
Proof.
  intros Hdata Hlabels Hread Hrows Hnd Hrow Hname.
  set (filtered :=
         filter (fun s => negb (Str.contains "Unnamed" (name s))) data).
  destruct (Frames.substitute_keys_fault (build_labels value_labels)
              (Dict.keys (build_labels value_labels)) filtered)
    as [key [Hfault [Hkey _]]].
  - apply incl_refl.
  - exists (VariableName row). split.
    + apply Labels.in_keys_build_labels, in_map, Hrow.
    + unfold filtered.
      rewrite (RunMore.columns_filter
                 (fun col => negb (Str.contains "Unnamed" col))).
      rewrite filter_In, Hname. intros [_ Hno]. discriminate Hno.
  - exists key. split; [|apply Labels.in_keys_build_labels, Hkey].
    unfold clean_data, cleaned.
    rewrite Hdata, Hlabels. cbn [bind].
    rewrite Hread. cbn [bind]. rewrite Hrows. cbn [bind].
    rewrite (Frames.drop_unnamed_filter data Hnd). cbn [bind].
    fold filtered. unfold substitute. rewrite Hfault. reflexivity.
Qed.

Lemma unnamed_label_variable_faults_witness :
  In "Unnamed: 2" (columns Sample.exported)
  /\ exists key,
       clean_data "2020-03-05"
                  (Sample.archive [mkRow "Unnamed: 2" (Num 1) None]) "out"
                  Sample.empty_world
       = (Some (KeyError key), Sample.empty_world)
       /\ In key (map VariableName [mkRow "Unnamed: 2" (Num 1) None]).
Proof.
  split; [simpl; tauto|].
  apply (unnamed_label_variable_faults
           "2020-03-05" (Sample.archive [mkRow "Unnamed: 2" (Num 1) None])
           "out" Sample.empty_world "Data_3-5-2020.csv"
           "ValueLabels_3-5-2020.csv" Sample.exported
           [mkRow "Unnamed: 2" (Num 1) None]
           (mkRow "Unnamed: 2" (Num 1) None));
    try reflexivity.
  - repeat (constructor; [simpl; intuition discriminate|]); constructor.
  - left. reflexivity.
Defined.

End OutputMore.

(** ** The normalizer on Unicode strings *)

Module UnicodeFacts.
Import Unicode Rules.

Lemma prefix_split (old s : str) :
  prefix old s = true <-> exists rest, s = old ++ rest.
Proof.
  revert s. induction old as [|a old IH]; intros s.
  - split; [intros _; exists s; reflexivity | reflexivity].
  - destruct s as [|b s]; simpl.
    + split; [discriminate | intros [rest Hrest]; discriminate Hrest].
    + rewrite andb_true_iff, N.eqb_eq, IH. split.
      * intros [-> [rest ->]]. exists rest. reflexivity.
      * intros [rest Hrest]. injection Hrest as -> ->.
        split; [reflexivity | exists rest; reflexivity].
Qed.

Lemma prefix_skipn (old s : str) :
  prefix old s = true -> s = old ++ skipn (List.length old) s.
Proof.
  intros Hpre. apply prefix_split in Hpre as [rest ->].
  rewrite skipn_app, skipn_all, Nat.sub_diag. reflexivity.
Qed.

Lemma code_replace_from_skip (old new : str) (k : nat) (c : N) (s : str) :
  replace_from old new (S k) (c :: s) = replace_from old new k s.
Proof. reflexivity. Qed.

Lemma code_replace_from_scan (old new : str) (c : N) (s : str) :
  replace_from old new 0 (c :: s)
  = if prefix old (c :: s)
    then new ++ replace_from old new (List.length old - 1) s
    else c :: replace_from old new 0 s.
Proof. reflexivity. Qed.

(** The scan writes what the rule asks for. *)
Lemma replace_from_Replaced (old new : str) :
  old <> [] ->
  forall (s : str) (k : nat),
    k <= List.length s ->
    Replaced old new (skipn k s) (replace_from old new k s).
Proof.
  intros Hold. induction s as [|c s IH]; intros k Hk.
  - simpl in Hk. replace k with 0 by lia. constructor.
  - destruct k as [|k].
    + rewrite code_replace_from_scan. cbn [skipn].
      destruct (prefix old (c :: s)) eqn:Hpre.
      * pose proof (prefix_skipn old (c :: s) Hpre) as Hsplit.
        destruct old as [|a old]; [contradiction|].
        cbn [List.length skipn Nat.sub] in Hsplit |- *.
        rewrite Nat.sub_0_r.
        assert (Hlen : List.length old <= List.length s).
        { apply (f_equal (@List.length N)) in Hsplit.
          rewrite length_app in Hsplit. simpl in Hsplit. lia. }
        pose proof (Replaced_here (a :: old) new _ _ (IH _ Hlen)) as Hhere.
        rewrite <- Hsplit in Hhere. exact Hhere.
      * apply Replaced_past; [|exact (IH 0 (Nat.le_0_l _))].
        intros rest Hrest.
        assert (Hyes : prefix old (c :: s) = true)
          by (apply prefix_split; exists rest; exact Hrest).
        congruence.
    + rewrite code_replace_from_skip. cbn [skipn].
      apply IH. simpl in Hk. lia.
Qed.

(** The rule leaves no choice. *)
Lemma Replaced_functional (old new : str) :
  old <> [] ->
  forall s out1, Replaced old new s out1 ->
  forall out2, Replaced old new s out2 -> out1 = out2.
Proof.
  intros Hold s out1 H1.
  induction H1 as [|rest out Hrest IH|c s out Hno Hs IH]; intros out2 H2.
  - inversion H2 as [|rest' out' Hr Heq|]; [reflexivity|].
    apply app_eq_nil in Heq as [Heq _]. contradiction.
  - remember (old ++ rest) as s eqn:Hs.
    destruct H2 as [|rest' out' Hr|c s' out' Hno Hs'].
    + symmetry in Hs. apply app_eq_nil in Hs as [Hs _]. contradiction.
    + apply app_inv_head in Hs. subst rest'.
      f_equal. exact (IH out' Hr).
    + contradiction (Hno rest Hs).
  - remember (c :: s) as t eqn:Ht.
    destruct H2 as [|rest' out' Hr|c' s' out' Hno' Hs'].
    + discriminate Ht.
    + contradiction (Hno rest' eq_refl).
    + injection Ht as -> ->. f_equal. exact (IH out' Hs').
Qed.

Lemma of_string_nonempty (old : string) :
  old <> EmptyString -> of_string old <> [].
Proof. destruct old; [contradiction | discriminate]. Qed.

Lemma replace_literal_Replaced (old new : string) (s out : str) :
  old <> EmptyString ->
  Replaced (of_string old) (of_string new) s out
  <-> out = replace_literal old new s.
Proof.
  intros Hold. pose proof (of_string_nonempty old Hold) as Hne.
  assert (Hrun : Replaced (of_string old) (of_string new) s
                          (replace_literal old new s)).
  { unfold replace_literal, replace.
    destruct (of_string old) as [|a o] eqn:Ho; [contradiction|].
    exact (replace_from_Replaced (a :: o) (of_string new) Hne s 0
             (Nat.le_0_l _)). }
  split.
  - intros Hout.
    exact (Replaced_functional _ _ Hne s out Hout _ Hrun).
  - intros ->. exact Hrun.
Qed.

(** [lower] writes what the rule asks for, and the rule leaves no choice. *)
Lemma lower_from_Lowercased (table : str -> nat -> N -> str) (whole : str) :
  forall (s : str) (i : nat),
    Lowercased table whole i s (lower_from table whole i s).
Proof.
  induction s as [|c s IH]; intros i; cbn [lower_from].
  - constructor.
  - destruct (c <? 128)%N eqn:Hascii.
    + apply N.ltb_lt in Hascii. unfold lower_ascii.
      destruct ((65 <=? c) && (c <=? 90))%N eqn:Hcap; cbn [app].
      * apply andb_true_iff in Hcap as [Hlo Hhi].
        apply N.leb_le in Hlo, Hhi.
        apply Lowercased_capital; [lia | apply IH].
      * apply andb_false_iff in Hcap.
        apply Lowercased_plain; [|exact Hascii | apply IH].
        destruct Hcap as [Hlo|Hhi];
          [left; apply N.leb_gt, Hlo | right; apply N.leb_gt, Hhi].
    + apply N.ltb_ge in Hascii.
      apply Lowercased_beyond; [exact Hascii | apply IH].
Qed.

Lemma Lowercased_functional (table : str -> nat -> N -> str) (whole : str) :
  forall i s out1, Lowercased table whole i s out1 ->
  forall out2, Lowercased table whole i s out2 -> out1 = out2.
Proof.
  intros i s out1 H1.
  induction H1 as [i|i c s out Hc Hs IH|i c s out Hc Ha Hs IH|i c s out Hc Hs IH];
    intros out2 H2; inversion H2; subst; try lia;
    first [reflexivity | f_equal; apply IH; assumption].
Qed.

Lemma lower_Lowercased (table : str -> nat -> N -> str) (s out : str) :
  Lowercased table s 0 s out <-> out = lower table s.
Proof.
  split.
  - intros Hout.
    exact (Lowercased_functional table s 0 s out Hout _
             (lower_from_Lowercased table s s 0)).
  - intros ->. apply lower_from_Lowercased.
Qed.

Lemma code_match_lit (c : N) (re : regex) (d : N) (s : str) :
  match_here (Lit c :: re) (d :: s)
  = if N.eqb c d then option_map S (match_here re s) else None.
Proof. reflexivity. Qed.

Lemma code_match_star_cons (cs : list N) (re : regex) (d : N) (t : str) :
  match_here (StarNoneOf cs :: re) (d :: t)
  = if in_class d cs then match_here re (d :: t)
    else match match_here (StarNoneOf cs :: re) t with
         | Some n => Some (S n)
         | None => match_here re (d :: t)
         end.
Proof. reflexivity. Qed.

Lemma code_sub_from_skip (re : regex) (repl : str) (k : nat) (c : N) (s : str) :
  sub_from re repl (S k) (c :: s) = sub_from re repl k s.
Proof. reflexivity. Qed.

Lemma code_sub_from_scan (re : regex) (repl : str) (c : N) (s : str) :
  sub_from re repl 0 (c :: s)
  = match match_here re (c :: s) with
    | Some (S n) => repl ++ sub_from re repl n s
    | Some O => repl ++ c :: sub_from re repl 0 s
    | None => c :: sub_from re repl 0 s
    end.
Proof. reflexivity. Qed.

Lemma in_parens (d : N) :
  in_class d [cp "("; cp ")"] = false <-> d <> cp "(" /\ d <> cp ")".
Proof.
  unfold in_class. cbn [existsb]. rewrite orb_false_r, orb_false_iff.
  rewrite !N.eqb_neq. reflexivity.
Qed.

(** The starred class followed by [\)] matches a body without parentheses
    and its closing parenthesis, and nothing else. *)
Lemma body_match_sound (t : str) (n : nat) :
  match_here body_then_close t = Some n ->
  exists body rest,
    paren_free body /\ t = body ++ cp ")" :: rest /\ n = S (List.length body).
Proof.
  unfold body_then_close. revert n.
  induction t as [|d t IH]; intros n Hm.
  - discriminate Hm.
  - rewrite code_match_star_cons, code_match_lit in Hm.
    destruct (in_class d [cp "("; cp ")"]) eqn:Hd.
    + destruct (N.eqb_spec (cp ")") d) as [<-|_]; [|discriminate Hm].
      injection Hm as <-. exists [], t.
      split; [constructor | split; reflexivity].
    + apply in_parens in Hd.
      destruct (match_here [StarNoneOf [cp "("; cp ")"]; Lit (cp ")")] t) as [m|] eqn:Ht.
      * injection Hm as <-.
        destruct (IH m eq_refl) as [body [rest [Hfree [-> ->]]]].
        exists (d :: body), rest.
        split; [constructor; assumption | split; reflexivity].
      * destruct (N.eqb_spec (cp ")") d) as [<-|_]; [|discriminate Hm].
        destruct Hd as [_ Hd]. contradiction Hd. reflexivity.
Qed.

Lemma body_match_complete (body rest : str) :
  paren_free body ->
  match_here body_then_close (body ++ cp ")" :: rest)
  = Some (S (List.length body)).
Proof.
  unfold body_then_close. induction 1 as [|d body Hd Hbody IH].
  - reflexivity.
  - cbn [app]. rewrite code_match_star_cons.
    rewrite (proj2 (in_parens d) Hd), IH. reflexivity.
Qed.

Lemma group_match_sound (s : str) (n : nat) :
  match_here paren_group s = Some n ->
  exists g rest, Group g /\ s = g ++ rest /\ n = List.length g.
Proof.
  unfold paren_group. intros Hm.
  destruct s as [|c s]; [discriminate Hm|].
  rewrite code_match_lit in Hm.
  destruct (N.eqb_spec (cp "_") c) as [<-|_]; [|discriminate Hm].
  destruct s as [|d s]; [discriminate Hm|].
  rewrite code_match_lit in Hm.
  destruct (N.eqb_spec (cp "(") d) as [<-|_]; [|discriminate Hm].
  destruct (match_here body_then_close s) as [m|] eqn:Hbody;
    [|discriminate Hm].
  injection Hm as <-.
  destruct (body_match_sound s m Hbody) as [body [rest [Hfree [-> ->]]]].
  exists (cp "_" :: cp "(" :: body ++ [cp ")"]), rest.
  split; [exists body; split; [exact Hfree | reflexivity]|].
  split.
  - cbn [app]. rewrite <- app_assoc. reflexivity.
  - cbn [List.length]. rewrite length_app. simpl. lia.
Qed.

Lemma group_match_complete (g rest : str) :
  Group g -> match_here paren_group (g ++ rest) = Some (List.length g).
Proof.
  intros [body [Hfree ->]]. unfold paren_group.
  cbn [app]. rewrite !code_match_lit, !N.eqb_refl.
  rewrite <- app_assoc. cbn [app].
  rewrite (body_match_complete body rest Hfree). cbn [option_map List.length]. rewrite length_app.
  simpl. f_equal. lia.
Qed.

Lemma group_long (g : str) : Group g -> 3 <= List.length g.
Proof.
  intros [body [_ ->]]. cbn [List.length]. rewrite length_app. simpl. lia.
Qed.

Lemma body_unique (body body' rest rest' : str) :
  paren_free body -> paren_free body' ->
  body ++ cp ")" :: rest = body' ++ cp ")" :: rest' ->
  body = body' /\ rest = rest'.
Proof.
  intros Hfree. revert body'.
  induction Hfree as [|d body Hd Hbody IH]; intros body' Hfree' Heq.
  - destruct Hfree' as [|d' body' Hd' _].
    + injection Heq as ->. split; reflexivity.
    + injection Heq as Heq _. destruct Hd' as [_ Hd'].
      contradiction Hd'. symmetry. exact Heq.
  - destruct Hfree' as [|d' body' Hd' Hbody'].
    + injection Heq as Heq _. destruct Hd as [_ Hd].
      contradiction Hd.
    + injection Heq as -> Heq.
      destruct (IH body' Hbody' Heq) as [-> ->]. split; reflexivity.
Qed.

Lemma group_unique (g g' rest rest' : str) :
  Group g -> Group g' -> g ++ rest = g' ++ rest' -> g = g' /\ rest = rest'.
Proof.
  intros [body [Hfree ->]] [body' [Hfree' ->]] Heq.
  cbn [app] in Heq. injection Heq as Heq.
  rewrite <- !app_assoc in Heq. cbn [app] in Heq.
  destruct (body_unique body body' rest rest' Hfree Hfree' Heq) as [-> ->].
  split; reflexivity.
Qed.

(** [re.sub] with the empty replacement writes what the rule asks for. *)
Lemma sub_from_GroupsRemoved :
  forall (s : str) (k : nat),
    k <= List.length s ->
    GroupsRemoved (skipn k s) (sub_from paren_group [] k s).
Proof.
  induction s as [|c s IH]; intros k Hk.
  - simpl in Hk. replace k with 0 by lia. simpl. constructor.
  - destruct k as [|k].
    + rewrite code_sub_from_scan. cbn [skipn app].
      destruct (match_here paren_group (c :: s)) as [n|] eqn:Hm.
      * destruct (group_match_sound _ _ Hm) as [g [rest [Hg [Hsplit ->]]]].
        pose proof (group_long g Hg) as Hlong.
        destruct g as [|a g]; [simpl in Hlong; lia|].
        cbn [List.length]. injection Hsplit as -> ->.
        assert (Hlen : List.length g <= List.length (g ++ rest))
          by (rewrite length_app; lia).
        pose proof (IH (List.length g) Hlen) as Hrest.
        rewrite skipn_app, skipn_all, Nat.sub_diag in Hrest.
        cbn [app skipn] in Hrest.
        exact (GroupsRemoved_here (a :: g) rest _ Hg Hrest).
      * apply GroupsRemoved_past; [|exact (IH 0 (Nat.le_0_l _))].
        intros g rest Hg Hsplit.
        rewrite Hsplit, (group_match_complete g rest Hg) in Hm.
        discriminate Hm.
    + rewrite code_sub_from_skip. cbn [skipn]. apply IH. simpl in Hk. lia.
Qed.

Lemma GroupsRemoved_functional :
  forall s out1, GroupsRemoved s out1 ->
  forall out2, GroupsRemoved s out2 -> out1 = out2.
Proof.
  intros s out1 H1.
  induction H1 as [|g rest out Hg Hrest IH|c s out Hno Hs IH]; intros out2 H2.
  - remember (@nil N) as t eqn:Ht.
    destruct H2 as [|g rest out Hg Hrest|c s' out' Hno Hs'].
    + reflexivity.
    + apply group_long in Hg.
      apply app_eq_nil in Ht as [-> _]. simpl in Hg. lia.
    + discriminate Ht.
  - remember (g ++ rest) as s eqn:Hs.
    destruct H2 as [|g' rest' out' Hg' Hr|c s' out' Hno Hs'].
    + apply group_long in Hg. symmetry in Hs.
      apply app_eq_nil in Hs as [-> _]. simpl in Hg. lia.
    + destruct (group_unique g' g rest' rest Hg' Hg Hs) as [_ ->].
      exact (IH out' Hr).
    + contradiction (Hno g rest Hg Hs).
  - remember (c :: s) as t eqn:Ht.
    destruct H2 as [|g' rest' out' Hg' Hr|c' s' out' Hno' Hs'].
    + discriminate Ht.
    + contradiction (Hno g' rest' Hg' eq_refl).
    + injection Ht as -> ->. f_equal. exact (IH out' Hs').
Qed.

Lemma sub_GroupsRemoved (s out : str) :
  GroupsRemoved s out <-> out = sub paren_group (of_string "") s.
Proof.
  pose proof (sub_from_GroupsRemoved s 0 (Nat.le_0_l _)) as Hrun.
  split.
  - intros Hout. exact (GroupsRemoved_functional s out Hout _ Hrun).
  - intros ->. exact Hrun.
Qed.

End UnicodeFacts.

Module UnicodeRules.
Import Unicode Rules.

Ltac rule_forward :=
  match goal with
  | H : Replaced (of_string ?old) (of_string ?new) ?s ?mid |- _ =>
      apply (UnicodeFacts.replace_literal_Replaced old new s mid) in H;
      [subst mid | discriminate]
  | H : Lowercased _ ?s 0 ?s ?mid |- _ =>
      apply UnicodeFacts.lower_Lowercased in H; subst mid
  | H : GroupsRemoved ?s ?mid |- _ =>
      apply UnicodeFacts.sub_GroupsRemoved in H; subst mid
  end.

Ltac rule_backward :=
  first
    [ apply UnicodeFacts.replace_literal_Replaced; [discriminate | reflexivity]
    | apply UnicodeFacts.lower_Lowercased; reflexivity
    | apply UnicodeFacts.sub_GroupsRemoved; reflexivity ].

(** The rules of section 4.4, applied in their order, hold of one output
    only, and it is the one [clean_column] returns. *)
Lemma rules_determine_clean_column
    (lower_beyond_ascii : str -> nat -> N -> str) (col out : str) :
  Normalized lower_beyond_ascii rules col out
  <-> out = Unicode.clean_column lower_beyond_ascii col.
Proof.
  unfold rules. cbn [Normalized Applied]. split.
  - intros Hrules.
    repeat match goal with
           | H : exists mid, _ |- _ => destruct H as [? [? H]]
           end.
    repeat rule_forward. subst out. reflexivity.
  - intros ->. unfold Unicode.clean_column.
    repeat (eexists; split; [rule_backward|]).
    reflexivity.
Qed.

End UnicodeRules.

(** ** ASCII headers in both models *)

Module Bridge.

Local Abbreviation code := Unicode.of_string.

Lemma of_string_cons (c : ascii) (s : string) :
  code (String c s) = Unicode.cp c :: code s.
Proof. reflexivity. Qed.

Lemma of_string_app (s t : string) :
  code (s ++ t)%string = code s ++ code t.
Proof.
  induction s as [|c s IH]; [reflexivity|].
  cbn [append]. rewrite !of_string_cons, IH. reflexivity.
Qed.

Lemma length_of_string (s : string) :
  List.length (code s) = String.length s.
Proof.
  induction s as [|c s IH]; [reflexivity|].
  rewrite of_string_cons. simpl. rewrite IH. reflexivity.
Qed.

Lemma eqb_cp (a b : ascii) : N.eqb (Unicode.cp a) (Unicode.cp b) = Ascii.eqb a b.
Proof.
  destruct (Ascii.eqb_spec a b) as [->|Hne].
  - apply N.eqb_refl.
  - apply N.eqb_neq. intros Heq. apply Hne.
    rewrite <- (ascii_N_embedding a), <- (ascii_N_embedding b).
    unfold Unicode.cp in Heq. rewrite Heq. reflexivity.
Qed.

Lemma prefix_of_string (old s : string) :
  Unicode.prefix (code old) (code s) = String.prefix old s.
Proof.
  revert s. induction old as [|a old IH]; intros s.
  - destruct s; reflexivity.
  - destruct s as [|b s]; [reflexivity|].
    rewrite !of_string_cons. cbn [Unicode.prefix String.prefix].
    rewrite eqb_cp, IH.
    destruct (ascii_dec a b) as [->|Hne].
    + rewrite Ascii.eqb_refl. reflexivity.
    + rewrite (proj2 (Ascii.eqb_neq a b) Hne). reflexivity.
Qed.

Lemma replace_from_of_string (old new : string) :
  forall (s : string) (k : nat),
    Unicode.replace_from (code old) (code new) k (code s)
    = code (Str.replace_from old new k s).
Proof.
  induction s as [|c s IH]; intros k; [reflexivity|].
  rewrite of_string_cons. destruct k as [|k].
  - rewrite UnicodeFacts.code_replace_from_scan, StrFacts.replace_from_scan.
    rewrite <- of_string_cons, prefix_of_string, length_of_string, IH.
    destruct (String.prefix old (String c s)).
    + rewrite of_string_app. reflexivity.
    + rewrite IH, of_string_cons. reflexivity.
  - rewrite UnicodeFacts.code_replace_from_skip, StrFacts.replace_from_skip.
    apply IH.
Qed.

Lemma replace_empty_of_string (new s : string) :
  Unicode.replace_empty (code new) (code s)
  = code (Str.replace_empty new s).
Proof.
  induction s as [|c s IH]; [reflexivity|].
  rewrite of_string_cons. cbn [Unicode.replace_empty Str.replace_empty].
  rewrite IH, of_string_app, of_string_cons. reflexivity.
Qed.

(** [Unicode.str.replace] with literals does the same in both models. *)
Lemma replace_literal_of_string (old new s : string) :
  Unicode.replace_literal old new (code s) = code (Str.replace old new s).
Proof.
  unfold Unicode.replace_literal, Unicode.replace, Str.replace.
  destruct old as [|a old].
  - apply replace_empty_of_string.
  - rewrite of_string_cons, <- of_string_cons.
    change (Unicode.cp a :: code old) with (code (String a old)).
    apply replace_from_of_string.
Qed.

Lemma lower_ascii_cp (c : ascii) :
  is_ascii c = true ->
  (Unicode.cp c <? 128)%N = true /\ Unicode.lower_ascii (Unicode.cp c) = Unicode.cp (Str.lower_char c).
Proof.
  destruct c as [[] [] [] [] [] [] [] []]; intros Hc;
    first [discriminate Hc | split; reflexivity].
Qed.

(** On an ASCII string [Unicode.str.lower] never consults the Unicode mapping. *)
Lemma lower_from_of_string (table : Unicode.str -> nat -> N -> Unicode.str) (whole : Unicode.str) :
  forall (s : string) (i : nat),
    Str.all is_ascii s = true ->
    Unicode.lower_from table whole i (code s) = code (Str.lower s).
Proof.
  induction s as [|c s IH]; intros i Hs; [reflexivity|].
  cbn [Str.all] in Hs. apply andb_true_iff in Hs as [Hc Hs].
  destruct (lower_ascii_cp c Hc) as [Hlt Hlow].
  rewrite of_string_cons. cbn [Unicode.lower_from Str.lower].
  rewrite Hlt, Hlow, (IH (S i) Hs), of_string_cons. reflexivity.
Qed.

Lemma in_class_cp (d : ascii) (cs : list ascii) :
  Unicode.in_class (Unicode.cp d) (map Unicode.cp cs) = Re.in_class d cs.
Proof.
  unfold Unicode.in_class, Re.in_class. induction cs as [|c cs IH]; [reflexivity|].
  cbn [map existsb]. rewrite eqb_cp, IH. reflexivity.
Qed.

Lemma match_here_of_string (re : Re.regex) :
  forall s : string,
    Unicode.match_here (map Unicode.atom_of_ascii re) (code s) = Re.match_here re s.
Proof.
  induction re as [|[c|cs] re IH]; intros s.
  - reflexivity.
  - destruct s as [|d s]; [reflexivity|].
    rewrite of_string_cons. cbn [map Unicode.atom_of_ascii].
    rewrite UnicodeFacts.code_match_lit, ReFacts.match_lit, eqb_cp, IH.
    reflexivity.
  - cbn [map Unicode.atom_of_ascii].
    induction s as [|d s IHs].
    + change (code "") with (@nil N).
      rewrite ReFacts.match_star_nil. rewrite <- (IH EmptyString).
      reflexivity.
    + rewrite of_string_cons.
      rewrite UnicodeFacts.code_match_star_cons, ReFacts.match_star_cons.
      rewrite in_class_cp, IHs, <- of_string_cons, IH. reflexivity.
Qed.

Lemma sub_from_of_string (re : Re.regex) (repl : string) :
  forall (s : string) (k : nat),
    Unicode.sub_from (map Unicode.atom_of_ascii re) (code repl) k (code s)
    = code (Re.sub_from re repl k s).
Proof.
  induction s as [|c s IH]; intros k.
  - change (code "") with (@nil N).
    cbn [Unicode.sub_from Re.sub_from].
    change (@nil N) with (code "") at 1.
    rewrite match_here_of_string.
    destruct k; [destruct (Re.match_here re "")|]; reflexivity.
  - rewrite of_string_cons. destruct k as [|k].
    + rewrite UnicodeFacts.code_sub_from_scan, ReFacts.sub_from_scan.
      rewrite <- of_string_cons, match_here_of_string.
      destruct (Re.match_here re (String c s)) as [[|n]|].
      * rewrite of_string_app, of_string_cons, IH. reflexivity.
      * rewrite of_string_app, IH. reflexivity.
      * rewrite of_string_cons, IH. reflexivity.
    + rewrite UnicodeFacts.code_sub_from_skip, ReFacts.sub_from_skip. apply IH.
Qed.

(** On an ASCII header [clean_column] on code points is [clean_column] on
    characters, whatever the Unicode mapping. *)
Lemma clean_column_ascii (table : Unicode.str -> nat -> N -> Unicode.str) (col : string) :
  Str.all is_ascii col = true ->
  Unicode.clean_column table (code col) = code (clean_column col).
Proof.
  intros Hcol. unfold Unicode.clean_column, clean_column, separators_rewritten.
  rewrite !replace_literal_of_string.
  unfold Unicode.lower. rewrite lower_from_of_string.
  - rewrite !replace_literal_of_string.
    unfold Unicode.sub, Re.sub.
    change Unicode.paren_group with (map Unicode.atom_of_ascii Re.paren_group).
    apply sub_from_of_string.
  - repeat (apply StrFacts.all_replace; [reflexivity|]). exact Hcol.
Qed.

(** X1. On an ASCII header the normalized name is never longer than the
    header: every [replace] writes at most as many characters as it reads,
    [lower] keeps each of them and [re.sub] only removes.  (Beyond ASCII
    [lower] can write two code points for one.) *)
Theorem ascii_header_never_longer
    (table : Unicode.str -> nat -> N -> Unicode.str) (col : string) :
  Str.all is_ascii col = true ->
  List.length (Unicode.clean_column table (code col))
  <= List.length (code col).
Proof.
  intros Hcol.
  rewrite (clean_column_ascii table col Hcol), !length_of_string.
  apply NormalizerMore.length_clean_column.
Qed.

Lemma ascii_header_never_longer_witness :
  List.length
    (Unicode.clean_column (fun _ _ c => [c])
       (code "Graduation Rate - Women (2020)"))
  <= 30.
Proof.
  exact (ascii_header_never_longer (fun _ _ c => [c])
           "Graduation Rate - Women (2020)" eq_refl).
Defined.

End Bridge.

(** ** The normalizer and the rules of section 4.4 *)

Module UnicodeClaim.

(** C3. For every Python string, whatever the Unicode lower-case mapping,
    the name returned by [clean_column] is the one and only result of the
    rules of section 4.4 applied in their order, each to the output of the
    one before: the five separator rewrites, lower-casing, the eight domain
    rewrites, the removal of the groups [_(...)] without inner parentheses.
    Each rule is stated on its own, as a relation between the string read
    and the string written.  The empty name stays empty, and on an ASCII
    header the result is the one of [clean_column] on characters. *)
Theorem clean_column_follows_the_rules
    (lower_beyond_ascii : Unicode.str -> nat -> N -> Unicode.str)
    (col : Unicode.str) :
  (forall out,
      Rules.Normalized lower_beyond_ascii Rules.rules col out
      <-> out = Unicode.clean_column lower_beyond_ascii col)
  /\ Unicode.clean_column lower_beyond_ascii [] = []
  /\ (forall header : string,
         Str.all is_ascii header = true ->
         Unicode.clean_column lower_beyond_ascii (Unicode.of_string header)
         = Unicode.of_string (clean_column header)).
Proof.
  split; [|split].
  - intros out. apply UnicodeRules.rules_determine_clean_column.
  - reflexivity.
  - intros header. apply Bridge.clean_column_ascii.
Qed.

Lemma clean_column_follows_the_rules_witness :
  Rules.Normalized (fun _ _ c => [c]) Rules.rules
    (Unicode.of_string "Graduation Rate - Women (2020)")
    (Unicode.of_string "gradrate_women")
  /\ Unicode.clean_column (fun _ _ c => [c])
       (Unicode.of_string "Graduation Rate - Women (2020)")
     = Unicode.of_string (clean_column "Graduation Rate - Women (2020)").
Proof.
  destruct (clean_column_follows_the_rules
              (fun _ _ c => [c])
              (Unicode.of_string "Graduation Rate - Women (2020)"))
    as [Hrules [_ Hascii]].
  split.
  - apply Hrules. vm_compute. reflexivity.
  - apply Hascii. reflexivity.
Defined.

End UnicodeClaim.
